(** * Timefold starter: the browser glue of the example applications

    The repository ships two example front ends
    ([school-timetabling/.../app.js] and [bed-allocation/.../app.js]) that
    render a schedule fetched over REST, start and stop solving, and show
    the score analysis of the loaded schedule.  This development embeds the
    functions of these scripts that the specification talks about:

    - [getScoreComponents] with the regular expression it scans with,
    - the comparator handed to [constraints.sort] in [analyze],
    - [analyze] itself (request and response handler),
    - [refreshSolvingButtons], [renderSchedule] and [pickColor].

    The solver engine is not part of the repository; the one statement about
    it is settled on a model written from the specification (module
    [Engine]). *)

From Equations Require Import Equations.
From stdpp Require Import gmap strings list.
From Stdlib Require Import ZArith Ascii Lia.

Open Scope Z_scope.

(** ** JavaScript numbers

    Every number of the scripts is an integer-valued IEEE double, an
    infinity or NaN: they come out of [parseInt], of the literals [0], [1]
    and [-1], and of one subtraction.  [Fin z] stands for the double whose
    value is the integer [z]; [-0] is identified with [0], which none of
    the operations below can tell apart. *)
Module JsNumber.

Inductive Number : Type :=
| Fin (z : Z)
| PosInf
| NegInf
| NaN.

#[global] Instance Number_eq_dec : EqDecision Number.
Proof. solve_decision. Defined.

Definition two53 : Z := 2 ^ 53.
Definition overflow_bound : Z := 2 ^ 1024.

(** Rounding of a non-negative integer to a 53-bit significand, to nearest,
    ties to even. *)
Definition round53 (n : Z) : Z :=
  if n <? two53 then n
  else
    let sh := Z.log2 n - 52 in
    let q := Z.shiftr n sh in
    let r := n - Z.shiftl q sh in
    let half := Z.shiftl 1 (sh - 1) in
    let q' := if (half <? r) || ((r =? half) && Z.odd q) then q + 1 else q in
    Z.shiftl q' sh.

(** The Number value of a mathematical integer (the conversion written
    [𝔽] in ECMAScript).  For decimal strings of more than 20 significant
    digits ECMAScript lets [parseInt] zero the digits after the 20th before
    converting; the model always converts the exact integer. *)
Definition of_Z (z : Z) : Number :=
  let m := round53 (Z.abs z) in
  if overflow_bound <=? m then (if z <? 0 then NegInf else PosInf)
  else Fin (Z.sgn z * m).

(** [x < y] *)
Definition num_lt (x y : Number) : bool :=
  match x, y with
  | NaN, _ | _, NaN => false
  | Fin a, Fin b => a <? b
  | NegInf, NegInf => false
  | NegInf, _ => true
  | _, NegInf => false
  | PosInf, _ => false
  | Fin _, PosInf => true
  end.

(** [x > y] *)
Definition num_gt (x y : Number) : bool := num_lt y x.

(** [x != 0] *)
Definition num_ne0 (x : Number) : bool :=
  match x with
  | Fin z => negb (z =? 0)
  | _ => true
  end.

(** [Math.abs(x)] *)
Definition num_abs (x : Number) : Number :=
  match x with
  | Fin z => Fin (Z.abs z)
  | PosInf | NegInf => PosInf
  | NaN => NaN
  end.

(** [x - y] *)
Definition num_sub (x y : Number) : Number :=
  match x, y with
  | NaN, _ | _, NaN => NaN
  | Fin a, Fin b => of_Z (a - b)
  | PosInf, PosInf | NegInf, NegInf => NaN
  | PosInf, _ => PosInf
  | NegInf, _ => NegInf
  | Fin _, PosInf => NegInf
  | Fin _, NegInf => PosInf
  end.

#[global] Arguments num_lt : simpl never.
#[global] Arguments num_gt : simpl never.

End JsNumber.

Import JsNumber.

(** ** Score strings: [getScoreComponents] *)
Module ScoreString.

Inductive Level : Type := Hard | Medium | Soft.

#[global] Instance Level_eq_dec : EqDecision Level.
Proof. solve_decision. Defined.

(** The property names [hard], [medium] and [soft]. *)
Definition level_name (l : Level) : list ascii :=
  String.list_ascii_of_string
    match l with
    | Hard => "hard"
    | Medium => "medium"
    | Soft => "soft"
    end.

(** [[0-9]] *)
Definition is_digit (c : ascii) : bool :=
  let n := nat_of_ascii c in ((48 <=? n) && (n <=? 57))%nat.

Definition digit_value (c : ascii) : Z := Z.of_nat (nat_of_ascii c) - 48.

(** [[0-9]*], greedy: the longest run of digits and what follows it. *)
Fixpoint span_digits (s : list ascii) : list ascii * list ascii :=
  match s with
  | c :: s' =>
      if is_digit c
      then let '(ds, r) := span_digits s' in (c :: ds, r)
      else ([], s)
  | [] => ([], [])
  end.

(** A literal at the head of the input. *)
Fixpoint strip_prefix (p s : list ascii) : option (list ascii) :=
  match p, s with
  | [], _ => Some s
  | a :: p', b :: s' => if decide (a = b) then strip_prefix p' s' else None
  | _ :: _, [] => None
  end.

(** [(hard|medium|soft)], alternatives tried from left to right. *)
Definition match_level (s : list ascii) : option (Level * list ascii) :=
  match strip_prefix (level_name Hard) s with
  | Some r => Some (Hard, r)
  | None =>
      match strip_prefix (level_name Medium) s with
      | Some r => Some (Medium, r)
      | None =>
          match strip_prefix (level_name Soft) s with
          | Some r => Some (Soft, r)
          | None => None
          end
      end
  end.

(** [-?], greedy. *)
Definition take_minus (s : list ascii) : list ascii * list ascii :=
  match s with
  | c :: t => if decide (c = "-"%char) then ([c], t) else ([], s)
  | [] => ([], [])
  end.

(** One attempt of [/(-?[0-9]+)(hard|medium|soft)/] at the head of the
    input: the two capture groups and the rest of the input.  The greedy
    choices are the only ones that can succeed: without the ["-"] the digits
    would have to start at the ["-"], and a shorter run of digits is followed
    by a digit, which starts no level name (every way of reading a prefix of
    the input as sign, digits and level name is the one found:
    [ScoreFacts.match_at_numeral]). *)
Definition match_at (s : list ascii) : option (list ascii * Level * list ascii) :=
  let '(sign, s1) := take_minus s in
  let '(ds, s2) := span_digits s1 in
  match ds with
  | [] => None
  | _ :: _ =>
      match match_level s2 with
      | Some (l, rest) => Some (sign ++ ds, l, rest)
      | None => None
      end
  end.

Definition inspect {A : Type} (a : A) : {b : A | a = b} := exist _ a eq_refl.

(** [score.matchAll(/.../g)]: the matches from left to right, each search
    starting where the previous match ended, or one character further when
    there is no match at the current position. *)
Equations? matchAll (s : list ascii) : list (list ascii * Level)
  by wf (length s) lt :=
  matchAll [] := [];
  matchAll (c :: s) with inspect (match_at (c :: s)) := {
    | exist _ (Some (g, l, rest)) e := (g, l) :: matchAll rest;
    | exist _ None _ := matchAll s }.
Proof.
  - assert (∀ u ds r, span_digits u = (ds, r) → (length r ≤ length u)%nat)
      as Hspan.
    { induction u as [|d u IH]; intros ds r; simpl.
      - intros [= <- <-]. simpl. lia.
      - destruct (is_digit d); [|intros [= <- <-]; simpl; lia].
        destruct (span_digits u) as [ds' r'] eqn:E. intros [= <- <-].
        specialize (IH ds' r' eq_refl). lia. }
    assert (∀ p u r, strip_prefix p u = Some r
                     → length u = (length p + length r)%nat) as Hstrip.
    { induction p as [|a p IH]; intros [|b u] r; simpl; try discriminate.
      - intros [= <-]. reflexivity.
      - intros [= <-]. reflexivity.
      - destruct (decide (a = b)); [|discriminate].
        intros H. rewrite (IH _ _ H). reflexivity. }
    revert e. generalize (c :: s). intros u. unfold match_at.
    destruct (take_minus u) as [sign s1] eqn:Es.
    assert (length s1 ≤ length u)%nat as Hs1.
    { destruct u as [|d u]; simpl in Es; [injection Es as <- <-; simpl; lia|].
      destruct (decide (d = "-"%char)); injection Es as <- <-; simpl; lia. }
    destruct (span_digits s1) as [ds s2] eqn:Ed. apply Hspan in Ed.
    destruct ds as [|d ds]; [discriminate|].
    unfold match_level.
    destruct (strip_prefix (level_name Hard) s2) eqn:E1;
      [intros [= <- <- <-]; apply Hstrip in E1; simpl in E1; lia|].
    destruct (strip_prefix (level_name Medium) s2) eqn:E2;
      [intros [= <- <- <-]; apply Hstrip in E2; simpl in E2; lia|].
    destruct (strip_prefix (level_name Soft) s2) eqn:E3;
      [intros [= <- <- <-]; apply Hstrip in E3; simpl in E3; lia|].
    discriminate.
  - simpl. lia.
Qed.

(** The value of a run of decimal digits, most significant first. *)
Definition digits_value (ds : list ascii) : Z :=
  fold_left (λ acc c, 10 * acc + digit_value c) ds 0.

(** [parseInt(s, 10)] on a string without leading white space: an optional
    sign, then the longest run of digits; [NaN] when there is no digit. *)
Definition parseInt (s : list ascii) : Number :=
  let '(neg, s1) := match s with
                    | c :: t =>
                        if decide (c = "-"%char) then (true, t)
                        else if decide (c = "+"%char) then (false, t)
                        else (false, s)
                    | [] => (false, [])
                    end in
  match fst (span_digits s1) with
  | [] => NaN
  | ds => of_Z (if neg : bool then - digits_value ds else digits_value ds)
  end.

(** The object [{hard: 0, medium: 0, soft: 0}] and its three properties. *)
Record Components : Type := mkComponents {
  hard : Number;
  medium : Number;
  soft : Number
}.

#[global] Instance Components_eq_dec : EqDecision Components.
Proof. solve_decision. Defined.

(** [components[l]] *)
Definition component (l : Level) (c : Components) : Number :=
  match l with
  | Hard => hard c
  | Medium => medium c
  | Soft => soft c
  end.

(** [components[l] = v] *)
Definition set_component (l : Level) (v : Number) (c : Components) : Components :=
  match l with
  | Hard => mkComponents v (medium c) (soft c)
  | Medium => mkComponents (hard c) v (soft c)
  | Soft => mkComponents (hard c) (medium c) v
  end.

Definition zero_components : Components := mkComponents (Fin 0) (Fin 0) (Fin 0).

(** The body of [$.each(matches, (i, parts) => ...)]:
    [components[parts[2]] = parseInt(parts[1], 10)]. *)
Definition store (components : Components) (parts : list ascii * Level) : Components :=
  set_component parts.2 (parseInt parts.1) components.

Definition getScoreComponents_chars (score : list ascii) : Components :=
  fold_left store (matchAll score) zero_components.

Definition getScoreComponents (score : string) : Components :=
  getScoreComponents_chars (String.list_ascii_of_string score).

(** Vocabulary for statements about numerals in a score string: the
    optional sign, the value of a signed run of digits, and a prefix that
    does not touch the numeral after it. *)
Definition minus_sign (neg : bool) : list ascii :=
  if neg then ["-"%char] else [].

Definition numeral_value (neg : bool) (ds : list ascii) : Z :=
  if neg then - digits_value ds else digits_value ds.

(** The last character of [pre], if any, is no digit, and is ["-"] only
    if [x] is: no match that starts in [pre] runs into what follows. *)
Definition clean_before (x : ascii) (pre : list ascii) : Prop :=
  ∀ u z, pre = u ++ [z] → is_digit z = false ∧ (z = "-"%char → x = "-"%char).


End ScoreString.

Import ScoreString.

(** ** The score analysis returned by [PUT .../analyze] *)
Module Analysis.

(** One element of [scoreAnalysis.constraints] as the server sends it.
    [weight] and [score] are score strings; of [matches] only the length is
    read. *)
Record ConstraintAnalysis : Type := mkConstraintAnalysis {
  name : string;
  weight : string;
  score : string;
  matches : list string
}.

(** The comparator of [constraints.sort((a, b) => ...)]. *)
Definition compareConstraints (a b : ConstraintAnalysis) : Number :=
  let aComponents := getScoreComponents (score a) in
  let bComponents := getScoreComponents (score b) in
  if num_lt (hard aComponents) (Fin 0) && num_gt (hard bComponents) (Fin 0)
  then Fin (-1)
  else if num_gt (hard aComponents) (Fin 0) && num_lt (soft bComponents) (Fin 0)
  then Fin 1
  else if num_gt (num_abs (hard aComponents)) (num_abs (hard bComponents))
  then Fin (-1)
  else if num_lt (medium aComponents) (Fin 0) && num_gt (medium bComponents) (Fin 0)
  then Fin (-1)
  else if num_gt (medium aComponents) (Fin 0) && num_lt (medium bComponents) (Fin 0)
  then Fin 1
  else if num_gt (num_abs (medium aComponents)) (num_abs (medium bComponents))
  then Fin (-1)
  else if num_lt (soft aComponents) (Fin 0) && num_gt (soft bComponents) (Fin 0)
  then Fin (-1)
  else if num_gt (soft aComponents) (Fin 0) && num_lt (soft bComponents) (Fin 0)
  then Fin 1
  else num_sub (num_abs (soft bComponents)) (num_abs (soft aComponents)).

(** [Array.prototype.sort] places [a] before [b] when the comparator
    returns a negative number. *)
Definition sorts_before (a b : ConstraintAnalysis) : bool :=
  num_lt (compareConstraints a b) (Fin 0).

End Analysis.

(** ** The order of the specification on scores

    Written from the specification, to compare the comparator with: at one
    level a negative entry comes before a positive one, and otherwise the
    entry of larger absolute value comes first; levels are compared
    lexicographically, hard before medium before soft. *)
Module ScoreOrder.

Definition level_before (x y : Z) : bool :=
  ((x <? 0) && (0 <? y))
  || (negb ((0 <? x) && (y <? 0)) && (Z.abs y <? Z.abs x)).

Definition level_tie (x y : Z) : bool :=
  negb (level_before x y) && negb (level_before y x).

Definition score_precedes (a b : Z * Z * Z) : bool :=
  let '(ah, am, asoft) := a in
  let '(bh, bm, bsoft) := b in
  level_before ah bh
  || (level_tie ah bh
      && (level_before am bm || (level_tie am bm && level_before asoft bsoft))).

End ScoreOrder.

(** ** The page of the school-timetabling front end

    The state the script reads and writes: its globals, the timers of the
    window, and the parts of the document it fills. *)
Module Ui.

(** *** Lists without repetition *)

(** [[...new Set(xs)]]: the distinct values in the order of their first
    occurrence. *)
Fixpoint distinct (xs : list string) : list string :=
  match xs with
  | [] => []
  | x :: xs' => x :: filter (λ y, y ≠ x) (distinct xs')
  end.

(** *** Colours: [BG_COLORS], [FG_COLORS], [COLOR_MAP], [nextColorIndex] *)

Definition BG_COLORS : list string :=
  ["#009E73"; "#0072B2"; "#D55E00"; "#000000"; "#CC79A7"; "#E69F00";
   "#F0E442"; "#F6768E"; "#C10020"; "#A6BDD7"; "#803E75"; "#007D34";
   "#56B4E9"; "#999999"; "#8DD3C7"; "#FFD92F"; "#B3DE69"; "#FB8072";
   "#80B1D3"; "#B15928"; "#CAB2D6"; "#1B9E77"; "#E7298A"; "#6A3D9A"].

Definition FG_COLORS : list string :=
  ["#FFFFFF"; "#FFFFFF"; "#FFFFFF"; "#FFFFFF"; "#FFFFFF"; "#000000";
   "#000000"; "#FFFFFF"; "#FFFFFF"; "#000000"; "#FFFFFF"; "#FFFFFF";
   "#FFFFFF"; "#000000"; "#000000"; "#000000"; "#000000"; "#FFFFFF";
   "#000000"; "#FFFFFF"; "#000000"; "#FFFFFF"; "#FFFFFF"; "#FFFFFF"].

(** The object [{bg: ..., fg: ...}]; [None] is [undefined], what indexing
    an array past its end gives. *)
Record Color : Type := mkColor {
  bg : option string;
  fg : option string
}.

#[global] Instance Color_eq_dec : EqDecision Color.
Proof. solve_decision. Defined.

Record Colors : Type := mkColors {
  COLOR_MAP : gmap string Color;
  nextColorIndex : nat
}.

Definition initial_colors : Colors := mkColors ∅ 0.

Definition pickColor (object : string) (c : Colors) : Color * Colors :=
  match COLOR_MAP c !! object with
  | Some color => (color, c)
  | None =>
      let index := nextColorIndex c in
      let color := mkColor (BG_COLORS !! index) (FG_COLORS !! index) in
      (color, mkColors (<[object := color]> (COLOR_MAP c)) (S index))
  end.

(** A sequence of calls of [pickColor], first to last, with the colours
    they return. *)
Fixpoint pickColors (objects : list string) (c : Colors) : list Color * Colors :=
  match objects with
  | [] => ([], c)
  | object :: objects' =>
      let '(color, c) := pickColor object c in
      let '(colors, c) := pickColors objects' c in
      (color :: colors, c)
  end.

(** The colour at an index of the two palettes. *)
Definition palette_color (index : nat) : Color :=
  mkColor (BG_COLORS !! index) (FG_COLORS !! index).

(** The position of a key in a list, the length of the list if it is not
    there. *)
Fixpoint index_of (key : string) (keys : list string) : nat :=
  match keys with
  | [] => 0
  | k :: keys' => if decide (k = key) then 0 else S (index_of key keys')
  end.

(** The colours hold exactly the keys [seen], each with the palette colour
    of its position. *)
Definition colors_of (seen : list string) (c : Colors) : Prop :=
  nextColorIndex c = length seen
  ∧ ∀ key, COLOR_MAP c !! key
           = if decide (key ∈ seen) then Some (palette_color (index_of key seen))
             else None.

(** *** Solving controls: the two buttons and the auto-refresh timer *)

(** [intervals] are the repeating timers of the window that are active,
    each with its handle and its delay in milliseconds; [nextHandle] is the
    handle the next [setInterval] returns. *)
Record Controls : Type := mkControls {
  solveButtonShown : bool;
  stopSolvingButtonShown : bool;
  autoRefreshIntervalId : option nat;
  intervals : list (nat * Z);
  nextHandle : nat
}.

Definition setInterval (delay : Z) (c : Controls) : nat * Controls :=
  (nextHandle c,
   mkControls (solveButtonShown c) (stopSolvingButtonShown c)
              (autoRefreshIntervalId c)
              (intervals c ++ [(nextHandle c, delay)]) (S (nextHandle c))).

Definition clearInterval (handle : nat) (c : Controls) : Controls :=
  mkControls (solveButtonShown c) (stopSolvingButtonShown c)
             (autoRefreshIntervalId c)
             (filter (λ i, i.1 ≠ handle) (intervals c)) (nextHandle c).

Definition refreshSolvingButtons (solving : bool) (c : Controls) : Controls :=
  if solving then
    let c := mkControls false true (autoRefreshIntervalId c) (intervals c)
                        (nextHandle c) in
    match autoRefreshIntervalId c with
    | None =>
        let '(handle, c) := setInterval 2000 c in
        mkControls (solveButtonShown c) (stopSolvingButtonShown c)
                   (Some handle) (intervals c) (nextHandle c)
    | Some _ => c
    end
  else
    let c := mkControls true false (autoRefreshIntervalId c) (intervals c)
                        (nextHandle c) in
    match autoRefreshIntervalId c with
    | Some handle =>
        let c := clearInterval handle c in
        mkControls (solveButtonShown c) (stopSolvingButtonShown c)
                   None (intervals c) (nextHandle c)
    | None => c
    end.

(** The script's timer and the variable that holds its handle agree: the
    only active interval is the one [autoRefreshIntervalId] names, and it
    fires every two seconds. *)
Definition controls_consistent (c : Controls) : Prop :=
  match autoRefreshIntervalId c with
  | Some handle => intervals c = [(handle, 2000)]
  | None => intervals c = []
  end.

(** Solving mode: solve hidden, stop shown, the auto-refresh running. *)
Definition solving_mode (c : Controls) : Prop :=
  solveButtonShown c = false ∧ stopSolvingButtonShown c = true
  ∧ ∃ handle, autoRefreshIntervalId c = Some handle
              ∧ intervals c = [(handle, 2000)].

(** Idle mode: solve shown, stop hidden, no auto-refresh. *)
Definition idle_mode (c : Controls) : Prop :=
  solveButtonShown c = true ∧ stopSolvingButtonShown c = false
  ∧ autoRefreshIntervalId c = None ∧ intervals c = [].

(** A sequence of calls of [refreshSolvingButtons], first to last. *)
Definition refreshSolvingButtons_calls (calls : list bool) (c : Controls) : Controls :=
  fold_left (λ c solving, refreshSolvingButtons solving c) calls c.

(** *** The timetable as the server sends it *)

Record Room : Type := mkRoom {
  room_id : string;
  room_name : string
}.

Record Timeslot : Type := mkTimeslot {
  timeslot_id : string;
  dayOfWeek : string;
  startTime : string;
  endTime : string
}.

(** [timeslot] and [room] hold the id of the assigned timeslot and room, or
    [None] for [null]. *)
Record Lesson : Type := mkLesson {
  lesson_id : string;
  subject : string;
  teacher : string;
  studentGroup : string;
  timeslot : option string;
  room : option string
}.

#[global] Instance Lesson_eq_dec : EqDecision Lesson.
Proof. solve_decision. Defined.

Record Timetable : Type := mkTimetable {
  solverStatus : option string;
  score : option string;
  lessons : list Lesson;
  rooms : list Room;
  timeslots : list Timeslot
}.

(** *** The document *)

(** The card built for a lesson. *)
Record Card : Type := mkCard {
  card_color : Color;
  card_title : string;
  card_teacher : string;
  card_small : string;
  card_text : string
}.

#[global] Instance Card_eq_dec : EqDecision Card.
Proof. solve_decision. Defined.

(** A [<td>] with its [id] and the cards appended to it. *)
Record Cell : Type := mkCell {
  cell_id : string;
  cell_children : list Card
}.

(** A child of [#unassignedLessons]. *)
Inductive PanelChild : Type :=
| LessonCol (card : Card)
| AllAssignedBanner.

#[global] Instance PanelChild_eq_dec : EqDecision PanelChild.
Proof. solve_decision. Defined.

(** The cells of the three tables in document order, and the children of
    the panel of unassigned lessons.  The page itself ([index.html]) is not
    among the sources; it is taken to list the table by room first, then the
    one by teacher, then the one by student group, which only matters when
    two cells of different tables have the same id.  Header rows carry no id
    and are left out. *)
Record Tables : Type := mkTables {
  timetableByRoom : list Cell;
  timetableByTeacher : list Cell;
  timetableByStudentGroup : list Cell;
  unassignedLessons : list PanelChild
}.

Inductive Icon : Type := NoIcon | WarningIcon | CheckIcon.

#[global] Instance Icon_eq_dec : EqDecision Icon.
Proof. solve_decision. Defined.

(** A row of the analysis table: the icon, then the texts of the cells. *)
Record AnalysisRow : Type := mkAnalysisRow {
  row_icon : Icon;
  row_name : string;
  row_type : Level;
  row_matches : nat;
  row_weight : Number;
  row_score : Number
}.

(** [#scoreAnalysisModal]: whether it is shown, the text and the table of
    [#scoreAnalysisModalContent], and the text of
    [#scoreAnalysisScoreLabel]. *)
Record Modal : Type := mkModal {
  modalShown : bool;
  contentText : string;
  contentTable : option (list AnalysisRow);
  scoreLabel : string
}.

(** A request handed to [$.put]: its URL and the schedule serialised into
    its body. *)
Record Request : Type := mkRequest {
  url : string;
  body : Timetable
}.

Record Page : Type := mkPage {
  controls : Controls;
  colors : Colors;
  scoreText : string;
  tables : Tables;
  modal : Modal;
  loadedSchedule : option Timetable;
  requests : list Request
}.

Definition with_controls (f : Controls → Controls) (p : Page) : Page :=
  mkPage (f (controls p)) (colors p) (scoreText p) (tables p) (modal p)
         (loadedSchedule p) (requests p).

Definition with_colors (c : Colors) (p : Page) : Page :=
  mkPage (controls p) c (scoreText p) (tables p) (modal p)
         (loadedSchedule p) (requests p).

Definition with_scoreText (s : string) (p : Page) : Page :=
  mkPage (controls p) (colors p) s (tables p) (modal p)
         (loadedSchedule p) (requests p).

Definition with_tables (t : Tables) (p : Page) : Page :=
  mkPage (controls p) (colors p) (scoreText p) t (modal p)
         (loadedSchedule p) (requests p).

Definition with_modal (m : Modal) (p : Page) : Page :=
  mkPage (controls p) (colors p) (scoreText p) (tables p) m
         (loadedSchedule p) (requests p).

Definition with_loadedSchedule (s : option Timetable) (p : Page) : Page :=
  mkPage (controls p) (colors p) (scoreText p) (tables p) (modal p)
         s (requests p).

Definition with_requests (r : list Request) (p : Page) : Page :=
  mkPage (controls p) (colors p) (scoreText p) (tables p) (modal p)
         (loadedSchedule p) r.

(** The page when the script has been loaded and nothing has run yet. *)
Definition initial_page (firstHandle : nat) : Page :=
  mkPage (mkControls true false None [] firstHandle) initial_colors ""
         (mkTables [] [] [] []) (mkModal false "" None "") None [].

(** How a function of the script ends: it runs to its end, or it is left
    early with the page as it is at that point (an exception, or a selector
    that is not a plain [#id], whose meaning jQuery's selector engine
    decides). *)
Inductive Outcome : Type :=
| Completed (p : Page)
| Aborted (p : Page).

Definition page_of (o : Outcome) : Page :=
  match o with
  | Completed p | Aborted p => p
  end.

Definition and_then (o : Outcome) (f : Page → Outcome) : Outcome :=
  match o with
  | Completed p => f p
  | Aborted p => Aborted p
  end.

(** *** [renderSchedule] *)

Definition base64_alphabet : list ascii :=
  String.list_ascii_of_string
    "ABCDEFGHIJKLMNOPQRSTUVWXYZabcdefghijklmnopqrstuvwxyz0123456789+/".

Definition base64_char (n : nat) : ascii := nth n base64_alphabet "A"%char.

(** Base64 of a sequence of bytes, three bytes to four characters, padded
    with ["="]. *)
Fixpoint base64 (bytes : list nat) : list ascii :=
  match bytes with
  | [] => []
  | [a] =>
      [base64_char (a / 4); base64_char (a mod 4 * 16); "="%char; "="%char]
  | [a; b] =>
      [base64_char (a / 4); base64_char (a mod 4 * 16 + b / 16);
       base64_char (b mod 16 * 4); "="%char]
  | a :: b :: c :: rest =>
      base64_char (a / 4) :: base64_char (a mod 4 * 16 + b / 16)
      :: base64_char (b mod 16 * 4 + c / 64) :: base64_char (c mod 64)
      :: base64 rest
  end%nat.

(** [btoa(str)] for a string of code units below 256, which is what a
    [string] here holds. *)
Definition btoa (str : string) : list ascii :=
  base64 (map nat_of_ascii (String.list_ascii_of_string str)).

(** [btoa(str).replace(/=/g, "")] *)
Definition convertToId (str : string) : string :=
  String.string_of_list_ascii (filter (λ c, c ≠ "="%char) (btoa str)).

(** [[\w-]]: the characters of an id that jQuery looks up with
    [getElementById] when the selector is ["#" + id]. *)
Definition is_id_char (c : ascii) : bool :=
  let n := nat_of_ascii c in
  ((48 <=? n) && (n <=? 57) || (65 <=? n) && (n <=? 90)
   || (97 <=? n) && (n <=? 122) || (n =? 95) || (n =? 45))%nat.

Definition plain_id (id : string) : bool :=
  match String.list_ascii_of_string id with
  | [] => false
  | c :: cs => forallb is_id_char (c :: cs)
  end.

Definition room_cell_id (timeslot room : string) : string :=
  "timeslot" +:+ timeslot +:+ "room" +:+ room.

Definition teacher_cell_id (timeslot teacher : string) : string :=
  "timeslot" +:+ timeslot +:+ "teacher" +:+ convertToId teacher.

Definition studentGroup_cell_id (timeslot studentGroup : string) : string :=
  "timeslot" +:+ timeslot +:+ "studentGroup" +:+ convertToId studentGroup.

(** The body of [$.each(timetable.timeslots, ...)]: one row in each table,
    with one empty cell for each room, teacher and student group. *)
Definition add_timeslot_rows (rooms : list Room) (teachers studentGroups : list string)
    (t : Tables) (timeslot : Timeslot) : Tables :=
  mkTables
    (timetableByRoom t
     ++ map (λ room, mkCell (room_cell_id (timeslot_id timeslot) (room_id room)) [])
            rooms)
    (timetableByTeacher t
     ++ map (λ teacher, mkCell (teacher_cell_id (timeslot_id timeslot) teacher) [])
            teachers)
    (timetableByStudentGroup t
     ++ map (λ studentGroup,
               mkCell (studentGroup_cell_id (timeslot_id timeslot) studentGroup) [])
            studentGroups)
    (unassignedLessons t).

(** [getElementById(id)] followed by [append]: the card goes into the first
    cell with that id, if there is one. *)
Fixpoint append_to_first (id : string) (card : Card) (cells : list Cell)
    : option (list Cell) :=
  match cells with
  | [] => None
  | cell :: cells' =>
      if decide (cell_id cell = id)
      then Some (mkCell (cell_id cell) (cell_children cell ++ [card]) :: cells')
      else (cell ::.) <$> append_to_first id card cells'
  end.

Definition append_by_id (id : string) (card : Card) (t : Tables) : Tables :=
  match append_to_first id card (timetableByRoom t) with
  | Some cells =>
      mkTables cells (timetableByTeacher t) (timetableByStudentGroup t)
               (unassignedLessons t)
  | None =>
      match append_to_first id card (timetableByTeacher t) with
      | Some cells =>
          mkTables (timetableByRoom t) cells (timetableByStudentGroup t)
                   (unassignedLessons t)
      | None =>
          match append_to_first id card (timetableByStudentGroup t) with
          | Some cells =>
              mkTables (timetableByRoom t) (timetableByTeacher t) cells
                       (unassignedLessons t)
          | None => t
          end
      end
  end.

(** [$("#" + id).append(card.clone())].  For a plain id jQuery calls
    [getElementById]; the page is taken to have no element outside the three
    tables whose id starts with ["timeslot"].  Any other selector goes to
    jQuery's selector engine, which is outside this model. *)
Definition jq_append (id : string) (card : Card) (p : Page) : Outcome :=
  if plain_id id
  then Completed (with_tables (append_by_id id card (tables p)) p)
  else Aborted p.

Definition lessonElement (color : Color) (lesson : Lesson) : Card :=
  mkCard color (subject lesson) (teacher lesson) (lesson_id lesson)
         (studentGroup lesson).

Definition append_unassigned (child : PanelChild) (t : Tables) : Tables :=
  mkTables (timetableByRoom t) (timetableByTeacher t)
           (timetableByStudentGroup t) (unassignedLessons t ++ [child]).

(** The body of [$.each(timetable.lessons, ...)]. *)
Definition place_lesson (lesson : Lesson) (p : Page) : Outcome :=
  let '(color, cs) := pickColor (subject lesson) (colors p) in
  let p := with_colors cs p in
  let element := lessonElement color lesson in
  match timeslot lesson, room lesson with
  | Some ts, Some rm =>
      and_then (jq_append (room_cell_id ts rm) element p) (λ p,
      and_then (jq_append (teacher_cell_id ts (teacher lesson)) element p) (λ p,
      jq_append (studentGroup_cell_id ts (studentGroup lesson)) element p))
  | _, _ =>
      Completed (with_tables (append_unassigned (LessonCol element) (tables p)) p)
  end.

(** [$.each(timetable.lessons, ...)], which stops at the first lesson
    whose body is left early. *)
Definition place_lessons (lessons : list Lesson) (o : Outcome) : Outcome :=
  fold_left (λ o lesson, and_then o (place_lesson lesson)) lessons o.

(** The tables as they are when the loop over the timeslots ends. *)
Definition build_tables (timetable : Timetable) : Tables :=
  let teachers := distinct (map teacher (lessons timetable)) in
  let studentGroups := distinct (map studentGroup (lessons timetable)) in
  fold_left (add_timeslot_rows (rooms timetable) teachers studentGroups)
            (timeslots timetable) (mkTables [] [] [] []).

(** [solverStatus != null && solverStatus !== "NOT_SOLVING"] *)
Definition isSolving (solverStatus : option string) : bool :=
  match solverStatus with
  | None => false
  | Some status => bool_decide (status ≠ "NOT_SOLVING")
  end.

(** The texts of [#info] and of the header rows are not modelled; the
    times of the timeslots are taken to be ones that [LocalTime.parse]
    accepts. *)
Definition renderSchedule (timetable : Timetable) (p : Page) : Outcome :=
  let p := with_controls
             (refreshSolvingButtons (isSolving (solverStatus timetable))) p in
  let p := with_scoreText ("Score: " +:+ default "?" (score timetable)) p in
  let p := with_tables (build_tables timetable) p in
  and_then
    (place_lessons (lessons timetable) (Completed p))
    (λ p,
       match unassignedLessons (tables p) with
       | [] => Completed (with_tables
                            (append_unassigned AllAssignedBanner (tables p)) p)
       | _ :: _ => Completed p
       end).

(** Vocabulary for statements about the rendered timetable. *)





(** The card of a lesson, in the colour that [pickColor] gives its
    subject. *)
Definition lesson_card (c : Colors) (lesson : Lesson) : Card :=
  lessonElement (pickColor (subject lesson) c).1 lesson.

(** The ids of the three cells a lesson with a timeslot and a room is
    appended to. *)
Definition lesson_cell_ids (lesson : Lesson) : list string :=
  match timeslot lesson, room lesson with
  | Some ts, Some rm =>
      [room_cell_id ts rm; teacher_cell_id ts (teacher lesson);
       studentGroup_cell_id ts (studentGroup lesson)]
  | _, _ => []
  end.


(** The success callback of [$.getJSON] in [refreshSchedule]. *)
Definition scheduleLoaded (schedule : Timetable) (p : Page) : Outcome :=
  renderSchedule schedule (with_loadedSchedule (Some schedule) p).

(** *** [analyze] *)

(** The two front ends differ in the URL and in when the green check mark
    is shown.  The schedule of bed-allocation has other lists than a
    timetable; [analyze] reads its [score] only and sends it as it is. *)
Inductive App : Type := SchoolTimetabling | BedAllocation.

Definition analyzeUrl (app : App) : string :=
  match app with
  | SchoolTimetabling => "/timetables/analyze"
  | BedAllocation => "/schedules/analyze"
  end.

Definition noScoreMessage : string :=
  "No score to analyze yet, please first press the 'solve' button.".

(** [analyze()] up to the request; the response is handled by
    [analyzeDone].  Reading [loadedSchedule.score] throws when no schedule
    has been loaded. *)
Definition analyze (app : App) (p : Page) : Outcome :=
  let p := with_modal
             (mkModal true (contentText (modal p)) None (scoreLabel (modal p))) p in
  match loadedSchedule p with
  | None => Aborted p
  | Some schedule =>
      match score schedule with
      | None =>
          Completed
            (with_modal (mkModal true noScoreMessage None (scoreLabel (modal p))) p)
      | Some sc =>
          let p := with_modal
                     (mkModal true (contentText (modal p)) None ("(" +:+ sc +:+ ")"))
                     p in
          Completed
            (with_requests (requests p ++ [mkRequest (analyzeUrl app) schedule]) p)
      end
  end.

(** An element of [scoreAnalysis.constraints] after [constraints.map]: it
    has gained [type] and [implicitScore], and [weight] is a number. *)
Record AnalysedConstraint : Type := mkAnalysedConstraint {
  a_name : string;
  a_score : string;
  a_matches : list string;
  a_type : Level;
  a_weight : Number;
  a_implicitScore : Number
}.

(** The body of [constraints.map((e) => ...)]. *)
Definition derive (e : Analysis.ConstraintAnalysis) : AnalysedConstraint :=
  let components := getScoreComponents (Analysis.weight e) in
  let type := if num_ne0 (hard components) then Hard
              else if num_ne0 (medium components) then Medium else Soft in
  let scores := getScoreComponents (Analysis.score e) in
  mkAnalysedConstraint
    (Analysis.name e) (Analysis.score e) (Analysis.matches e) type
    (component type components)
    (if num_ne0 (hard scores) then hard scores
     else if num_ne0 (medium scores) then medium scores else soft scores).

(** The icon of a row. *)
Definition row_icon_of (app : App) (c : AnalysedConstraint) : Icon :=
  if bool_decide (a_type c = Hard) && num_lt (a_implicitScore c) (Fin 0)
  then WarningIcon
  else
    match app with
    | SchoolTimetabling =>
        if num_lt (a_weight c) (Fin 0) && bool_decide (length (a_matches c) = 0%nat)
        then CheckIcon else NoIcon
    | BedAllocation =>
        if bool_decide (length (a_matches c) = 0%nat) then CheckIcon else NoIcon
    end.

(** The body of [$.each(scoreAnalysis.constraints, ...)]. *)
Definition analysisRow (app : App) (c : AnalysedConstraint) : AnalysisRow :=
  mkAnalysisRow (row_icon_of app c) (a_name c) (a_type c)
                (length (a_matches c)) (a_weight c) (a_implicitScore c).

Section Sorting.

(** [Array.prototype.sort] with a comparator.  ECMAScript leaves the
    algorithm to the implementation, and the order too when the comparator
    is not consistent. *)
Variable sort :
  (Analysis.ConstraintAnalysis → Analysis.ConstraintAnalysis → Number)
  → list Analysis.ConstraintAnalysis → list Analysis.ConstraintAnalysis.

(** The success callback of [$.put] in [analyze]: the constraints of the
    response as the callback leaves them, and the page. *)
Definition analyzeDone (app : App) (scoreAnalysis : list Analysis.ConstraintAnalysis)
    (p : Page) : list AnalysedConstraint * Page :=
  let constraints := sort Analysis.compareConstraints scoreAnalysis in
  let constraints := map derive constraints in
  (constraints,
   with_modal
     (mkModal (modalShown (modal p)) "" (Some (map (analysisRow app) constraints))
              (scoreLabel (modal p)))
     p).

End Sorting.

(** Insertion sort, one algorithm an implementation may use. *)
Fixpoint insert_sorted (cmp : Analysis.ConstraintAnalysis → Analysis.ConstraintAnalysis → Number)
    (x : Analysis.ConstraintAnalysis) (l : list Analysis.ConstraintAnalysis)
    : list Analysis.ConstraintAnalysis :=
  match l with
  | [] => [x]
  | y :: l' => if num_gt (cmp y x) (Fin 0) then x :: y :: l'
               else y :: insert_sorted cmp x l'
  end.

Definition insertion_sort (cmp : Analysis.ConstraintAnalysis → Analysis.ConstraintAnalysis → Number)
    (l : list Analysis.ConstraintAnalysis) : list Analysis.ConstraintAnalysis :=
  foldr (insert_sorted cmp) [] l.

End Ui.

(** ** The solver engine, from the specification

    The engine that solves a schedule is the Timefold library, which the
    repository uses and documents but does not contain.  What follows is
    written from the specification's data model (section 3), its error
    taxonomy (section 7) and the states of the search engine (section
    4.3). *)
Module Engine.

(** Modelled from the spec: an Entity, of which the sources only have the
    documentation.  It has a stable id, a pin flag, is or is not marked as
    allowing unassigned Variables, and holds its Variables, each a
    reference or unassigned ([None]). *)
Record Entity : Type := mkEntity {
  entity_id : nat;
  pinned : bool;
  allowsUnassigned : bool;
  variables : list (option nat)
}.

(** Modelled from the spec: the Solution submitted for solving, with the
    ids of the Entities that the Constraints refer to. *)
Record Solution : Type := mkSolution {
  entities : list Entity;
  referenced : list nat
}.

(** Modelled from the spec: the configuration errors of section 7. *)
Inductive ConfigurationError : Type :=
| UnregisteredEntity (id : nat)
| DuplicateId (id : nat)
| PinnedIllegalNull (id : nat).

(** Modelled from the spec: the states of the search engine. *)
Inductive SearchState : Type :=
| UNINITIALIZED
| CONSTRUCTING
| LOCAL_SEARCH
| PAUSED
| TERMINATED.

(** Modelled from the spec: "a pinned Entity with an unassigned Variable
    that disallows unassignment is an illegal state". *)
Definition illegally_pinned (e : Entity) : bool :=
  pinned e && negb (allowsUnassigned e)
  && bool_decide (Exists (λ v, v = None) (variables e)).

(** Modelled from the spec: the "duplicate ID" of section 7, an id that
    two Entities share. *)
Fixpoint first_duplicate (ids : list nat) : option nat :=
  match ids with
  | [] => None
  | id :: ids' =>
      if bool_decide (id ∈ ids') then Some id else first_duplicate ids'
  end.

(** Modelled from the spec: the checks made on a Solution before solving
    starts, the validation of the engine that is missing from the
    sources. *)
Definition validate (s : Solution) : option ConfigurationError :=
  let ids := map entity_id (entities s) in
  match find (λ id, bool_decide (id ∉ ids)) (referenced s) with
  | Some id => Some (UnregisteredEntity id)
  | None =>
      match first_duplicate ids with
      | Some id => Some (DuplicateId id)
      | None =>
          match find illegally_pinned (entities s) with
          | Some e => Some (PinnedIllegalNull (entity_id e))
          | None => None
          end
      end
  end.

(** Modelled from the spec: a solving job, the search engine's state and
    its working solution. *)
Record Job : Type := mkJob {
  state : SearchState;
  working : Solution
}.

(** Modelled from the spec: [solve(id, solution)] of the job orchestrator,
    missing from the sources.  Configuration errors are "surfaced before any
    solving starts"; otherwise the search engine leaves [UNINITIALIZED] for
    [CONSTRUCTING]. *)
Definition solve (s : Solution) : ConfigurationError + Job :=
  match validate s with
  | Some err => inl err
  | None => inr (mkJob CONSTRUCTING s)
  end.

End Engine.

(** ** Score strings as the server writes them

    The documentation shows scores as ["0hard/-5soft"]: the levels in
    decimal, each followed by its name, separated by ["/"]. *)
Module ScoreFormat.

Definition digit_char (d : Z) : ascii := ascii_of_nat (Z.to_nat (48 + d)).

(** The decimal digits of a non-negative integer in front of [acc], most
    significant first; [fuel] bounds the number of digits. *)
Fixpoint decimal_digits (fuel : nat) (n : Z) (acc : list ascii) : list ascii :=
  match fuel with
  | O => acc
  | S fuel' =>
      let acc' := digit_char (n mod 10) :: acc in
      if n <? 10 then acc' else decimal_digits fuel' (n / 10) acc'
  end.

Definition decimal (n : Z) : list ascii :=
  decimal_digits (S (Z.to_nat (Z.log2 n))) n [].

(** An integer as Java prints it. *)
Definition signed_decimal (z : Z) : list ascii :=
  minus_sign (z <? 0) ++ decimal (Z.abs z).

(** A score of two levels, ["<hard>hard/<soft>soft"]. *)
Definition hard_soft (h s : Z) : string :=
  String.string_of_list_ascii
    (signed_decimal h ++ level_name Hard ++ "/"%char
     :: signed_decimal s ++ level_name Soft).

(** A score of three levels, ["<hard>hard/<medium>medium/<soft>soft"]. *)
Definition hard_medium_soft (h m s : Z) : string :=
  String.string_of_list_ascii
    (signed_decimal h ++ level_name Hard ++ "/"%char
     :: signed_decimal m ++ level_name Medium ++ "/"%char
     :: signed_decimal s ++ level_name Soft).

End ScoreFormat.

(** ** The colours of the conference-scheduling front end

    The second script of [app.js] has the same palettes and the same
    [pickColor], but its [COLOR_MAP] starts from three named colours, and
    [renderSchedule] brings it back to them before it draws. *)
Module Conference.

Import Ui.

(** [new Map().set("Blue", ...).set("Green", ...).set("Orange", ...)] *)
Definition presets : gmap string Color :=
  <["Orange" := mkColor (Some "#D55E00") (Some "#FFFFFF")]>
    (<["Green" := mkColor (Some "#009E73") (Some "#FFFFFF")]>
       (<["Blue" := mkColor (Some "#0072B2") (Some "#FFFFFF")]> ∅)).

(** [resetColorMap()] *)
Definition resetColorMap (c : Colors) : Colors := mkColors presets 0.

(** The keys of a sequence of calls that are not preset, each once, in the
    order of their first calls. *)
Definition new_keys (keys : list string) : list string :=
  distinct (filter (λ key, presets !! key = None) keys).

(** The colours hold the presets and the keys [seen], each of these with
    the palette colour of its position. *)
Definition colors_over (seen : list string) (c : Colors) : Prop :=
  nextColorIndex c = length seen
  ∧ ∀ key, COLOR_MAP c !! key
           = match presets !! key with
             | Some color => Some color
             | None => if decide (key ∈ seen)
                       then Some (palette_color (index_of key seen)) else None
             end.

End Conference.

(** ** Vocabulary for repeated renderings *)
Module Rendering.

Import Ui.

(** The same outcome on a page whose colours are [c]. *)
Definition recolor (c : Colors) (o : Outcome) : Outcome :=
  match o with
  | Completed p => Completed (with_colors c p)
  | Aborted p => Aborted (with_colors c p)
  end.



End Rendering.

(** ** Reading a converted id back *)
Module Base64.

Import Ui.

(** The position of a character in a list, the length of the list if it
    is not there. *)
Fixpoint position (c : ascii) (l : list ascii) : nat :=
  match l with
  | [] => 0
  | x :: l' => if decide (x = c) then 0 else S (position c l')
  end.

(** The six bits that a character of the alphabet stands for. *)
Definition sextet (c : ascii) : nat := position c base64_alphabet.

(** The bytes of a base64 text without padding: four characters to three
    bytes, a rest of three characters to two bytes and of two to one. *)
Fixpoint decode (chars : list ascii) : list nat :=
  match chars with
  | a :: b :: c :: d :: rest =>
      (sextet a * 4 + sextet b / 16) :: (sextet b mod 16 * 16 + sextet c / 4)
      :: (sextet c mod 4 * 64 + sextet d) :: decode rest
  | [a; b; c] =>
      [sextet a * 4 + sextet b / 16; sextet b mod 16 * 16 + sextet c / 4]
  | [a; b] => [sextet a * 4 + sextet b / 16]
  | _ => []
  end%nat.

End Base64.

(** ** The school-timetabling page and its server

    The functions of the script that talk to the server, with their
    callbacks, as handlers of the events of a session: the clicks of the user,
    the responses of the server and the firing of the timer. *)
Module Session.

Import Ui.

(** A value that the script concatenates into a path: [null],
    [undefined] or a string. *)
Inductive Id : Type :=
| Null
| Undefined
| Text (s : string).

(** The text of the value in a concatenation. *)
Definition id_text (id : Id) : string :=
  match id with
  | Null => "null"
  | Undefined => "undefined"
  | Text s => s
  end.

(** A request handed to jQuery.  The body of a [POST] is
    [JSON.stringify(loadedSchedule)], of [null] when no schedule is loaded. *)
Inductive HttpRequest : Type :=
| Get (path : string)
| Post (path : string) (body : option Timetable)
| Delete (path : string).

(** The variables of the script beside those of the page, the items of
    the data set menu that have a click handler, one entry for each handler,
    and what has gone out: the requests, the alerts and the titles of the
    error notifications. *)
Record State : Type := mkState {
  page : Page;
  scheduleId : Id;
  demoDataId : Id;
  demoItems : list string;
  sent : list HttpRequest;
  alerts : list string;
  notifications : list string
}.

Definition with_page (f : Page → Page) (s : State) : State :=
  mkState (f (page s)) (scheduleId s) (demoDataId s) (demoItems s) (sent s)
          (alerts s) (notifications s).

Definition with_scheduleId (id : Id) (s : State) : State :=
  mkState (page s) id (demoDataId s) (demoItems s) (sent s) (alerts s)
          (notifications s).

Definition with_demoDataId (id : Id) (s : State) : State :=
  mkState (page s) (scheduleId s) id (demoItems s) (sent s) (alerts s)
          (notifications s).

Definition with_demoItems (items : list string) (s : State) : State :=
  mkState (page s) (scheduleId s) (demoDataId s) items (sent s) (alerts s)
          (notifications s).

Definition send (request : HttpRequest) (s : State) : State :=
  mkState (page s) (scheduleId s) (demoDataId s) (demoItems s)
          (sent s ++ [request]) (alerts s) (notifications s).

Definition alert (message : string) (s : State) : State :=
  mkState (page s) (scheduleId s) (demoDataId s) (demoItems s) (sent s)
          (alerts s ++ [message]) (notifications s).

(** [showError(title, xhr)]: a notification is appended to the panel; of
    its texts only the title is kept. *)
Definition showError (title : string) (s : State) : State :=
  mkState (page s) (scheduleId s) (demoDataId s) (demoItems s) (sent s)
          (alerts s) (notifications s ++ [title]).

(** The script when it has been loaded. *)
Definition start (firstHandle : nat) : State :=
  mkState (initial_page firstHandle) Null Null [] [] [] [].

Definition refreshSchedule (s : State) : State :=
  match scheduleId s with
  | Null =>
      match demoDataId s with
      | Null => alert "Please select a test data set." s
      | id => send (Get ("/demo-data/" +:+ id_text id)) s
      end
  | id => send (Get ("/timetables/" +:+ id_text id)) s
  end.

(** The success callback of [$.getJSON] in [refreshSchedule]; when
    [renderSchedule] is left early the page stays as it is at that point. *)
Definition refreshSchedule_done (schedule : Timetable) (s : State) : State :=
  with_page (λ p, page_of (scheduleLoaded schedule p)) s.

(** The [fail] callback of [refreshSchedule]. *)
Definition refreshSchedule_fail (s : State) : State :=
  with_page (with_controls (refreshSolvingButtons false))
            (showError "Getting the timetable has failed." s).

Definition solve (s : State) : State :=
  send (Post "/timetables" (loadedSchedule (page s))) s.

(** The success callback of [$.post] in [solve]; [data] is the text of
    the response, the id of the solver job. *)
Definition solve_done (data : string) (s : State) : State :=
  with_page (with_controls (refreshSolvingButtons true))
            (with_scheduleId (Text data) s).

Definition solve_fail (s : State) : State :=
  with_page (with_controls (refreshSolvingButtons false))
            (showError "Start solving failed." s).

Definition stopSolving (s : State) : State :=
  send (Delete ("/timetables/" +:+ id_text (scheduleId s))) s.

Definition stopSolving_done (s : State) : State :=
  refreshSchedule (with_page (with_controls (refreshSolvingButtons false)) s).

Definition stopSolving_fail (s : State) : State :=
  showError "Stop solving failed." s.

Definition fetchDemoData (s : State) : State := send (Get "/demo-data") s.

(** The click handler that [fetchDemoData] gives an item of the menu. *)
Definition demoItem_click (item : string) (s : State) : State :=
  refreshSchedule (with_demoDataId (Text item) (with_scheduleId Null s)).

(** [data.forEach(...)]: every item gets a menu entry with the id
    [item + "TestData"] and a click handler.  The handler is attached with
    [$("#" + item + "TestData")]; the loop is followed as long as that is the
    selector of a plain id, and the result says whether it got to its end. *)
Fixpoint add_items (data : list string) (items : list string) : list string * bool :=
  match data with
  | [] => (items, true)
  | item :: data' =>
      if plain_id (item +:+ "TestData") then add_items data' (items ++ [item])
      else (items, false)
  end.

(** [data[0]] *)
Definition first_item (data : list string) : Id :=
  match data with
  | [] => Undefined
  | item :: _ => Text item
  end.

(** The success callback of [$.get] in [fetchDemoData]. *)
Definition fetchDemoData_done (data : list string) (s : State) : State :=
  let '(items, completed) := add_items data (demoItems s) in
  let s := with_demoItems items s in
  if completed then refreshSchedule (with_demoDataId (first_item data) s) else s.

(** The number of click handlers on the first menu entry of an item:
    [$("#" + item + "TestData")] is the first element with that id, so every
    handler for the item is attached to that entry. *)
Definition handlers_of (item : string) (items : list string) : nat :=
  length (filter (λ i, i = item) items).

(** What happens in a session; [DemoItemClicked] is a click on the first
    menu entry of the item.  The [fail] callback of [fetchDemoData], which
    empties the page, is not among the events. *)
Inductive Event : Type :=
| Ready
| DemoDataLoaded (data : list string)
| DemoItemClicked (item : string)
| ScheduleReceived (schedule : Timetable)
| ScheduleFailed
| SolveClicked
| SolveStarted (data : string)
| SolveFailed
| StopClicked
| SolveStopped
| StopFailed
| Tick.

(** The timer fires only while an interval is active. *)
Definition handle (s : State) (e : Event) : State :=
  match e with
  | Ready => fetchDemoData s
  | DemoDataLoaded data => fetchDemoData_done data s
  | DemoItemClicked item =>
      Nat.iter (handlers_of item (demoItems s)) (demoItem_click item) s
  | ScheduleReceived schedule => refreshSchedule_done schedule s
  | ScheduleFailed => refreshSchedule_fail s
  | SolveClicked => solve s
  | SolveStarted data => solve_done data s
  | SolveFailed => solve_fail s
  | StopClicked => stopSolving s
  | SolveStopped => stopSolving_done s
  | StopFailed => stopSolving_fail s
  | Tick =>
      match intervals (controls (page s)) with
      | [] => s
      | _ :: _ => refreshSchedule s
      end
  end.

Definition run (events : list Event) (s : State) : State :=
  fold_left handle events s.

(** The events that give the script an id: the response to [solve]
    sets [scheduleId] and the list of data sets sets [demoDataId]; a click on
    an entry of the menu needs the entries that the list brings. *)
Definition sets_id (e : Event) : bool :=
  match e with
  | SolveStarted _ | DemoDataLoaded _ => true
  | _ => false
  end.

End Session.

(** * Properties *)

(** ** Numbers *)

Example of_Z_small : of_Z (-15) = Fin (-15).
Proof. reflexivity. Qed.

Example of_Z_tie_to_even_down : of_Z (2 ^ 53 + 1) = Fin (2 ^ 53).
Proof. vm_compute. reflexivity. Qed.

Example of_Z_tie_to_even_up : of_Z (2 ^ 53 + 3) = Fin (2 ^ 53 + 4).
Proof. vm_compute. reflexivity. Qed.

Example of_Z_ten_to_23 : of_Z (10 ^ 23) = Fin 99999999999999991611392.
Proof. vm_compute. reflexivity. Qed.

Example of_Z_largest : of_Z ((2 ^ 53 - 1) * 2 ^ 971) = Fin ((2 ^ 53 - 1) * 2 ^ 971).
Proof. vm_compute. reflexivity. Qed.

Example of_Z_overflow : of_Z (- (2 ^ 1024 - 2 ^ 970)) = NegInf.
Proof. vm_compute. reflexivity. Qed.

Example of_Z_below_overflow :
  of_Z (2 ^ 1024 - 2 ^ 970 - 1) = Fin ((2 ^ 53 - 1) * 2 ^ 971).
Proof. vm_compute. reflexivity. Qed.

(** ** The regular expression and [getScoreComponents] *)
Module ScoreFacts.

Lemma matchAll_nil : matchAll [] = [].
Proof. reflexivity. Qed.

Lemma matchAll_cons c s :
  matchAll (c :: s)
  = match match_at (c :: s) with
    | Some (g, l, rest) => (g, l) :: matchAll rest
    | None => matchAll s
    end.
Proof.
  simp matchAll.
  destruct (inspect (match_at (c :: s))) as [[[[g l] rest]|] e];
    simpl; rewrite e; reflexivity.
Qed.

Lemma is_digit_not_minus c : is_digit c = true → c ≠ "-"%char.
Proof. intros H ->. discriminate H. Qed.

Lemma is_digit_not_plus c : is_digit c = true → c ≠ "+"%char.
Proof. intros H ->. discriminate H. Qed.

Lemma level_name_no_digit l : Forall (λ a, is_digit a = false ∧ a ≠ "-"%char) (level_name l).
Proof. destruct l; repeat constructor; discriminate. Qed.

Lemma level_name_nonempty l : level_name l ≠ [].
Proof. destruct l; discriminate. Qed.

Lemma span_digits_split s ds r :
  span_digits s = (ds, r) → s = ds ++ r ∧ Forall (λ c, is_digit c = true) ds.
Proof.
  revert ds r. induction s as [|c s IH]; intros ds r; simpl.
  - intros [= <- <-]. split; [reflexivity | constructor].
  - destruct (is_digit c) eqn:Ec.
    + destruct (span_digits s) as [ds' r'] eqn:E. intros [= <- <-].
      destruct (IH _ _ eq_refl) as [-> Hds]. split; [reflexivity|].
      constructor; assumption.
    + intros [= <- <-]. split; [reflexivity | constructor].
Qed.

Lemma span_digits_run ds r :
  Forall (λ c, is_digit c = true) ds →
  match r with [] => True | x :: _ => is_digit x = false end →
  span_digits (ds ++ r) = (ds, r).
Proof.
  intros Hds Hr. induction Hds as [|d ds Hd _ IH]; simpl.
  - destruct r as [|x r]; [reflexivity|]. simpl. rewrite Hr. reflexivity.
  - rewrite Hd, IH. reflexivity.
Qed.

Lemma strip_prefix_Some p s r : strip_prefix p s = Some r → s = p ++ r.
Proof.
  revert s. induction p as [|a p IH]; intros [|b s]; simpl; try discriminate.
  - intros [= <-]. reflexivity.
  - intros [= <-]. reflexivity.
  - destruct (decide (a = b)) as [->|]; [|discriminate].
    intros H. rewrite (IH _ H). reflexivity.
Qed.

Lemma match_level_Some s l r : match_level s = Some (l, r) → s = level_name l ++ r.
Proof.
  unfold match_level.
  destruct (strip_prefix (level_name Hard) s) eqn:E1;
    [intros [= <- <-]; apply strip_prefix_Some; assumption|].
  destruct (strip_prefix (level_name Medium) s) eqn:E2;
    [intros [= <- <-]; apply strip_prefix_Some; assumption|].
  destruct (strip_prefix (level_name Soft) s) eqn:E3;
    [intros [= <- <-]; apply strip_prefix_Some; assumption|].
  discriminate.
Qed.

Lemma match_level_name l r : match_level (level_name l ++ r) = Some (l, r).
Proof. destruct l; reflexivity. Qed.

Lemma take_minus_split s sign s1 : take_minus s = (sign, s1) → s = sign ++ s1.
Proof.
  destruct s as [|c t]; simpl.
  - intros [= <- <-]. reflexivity.
  - destruct (decide (c = "-"%char)); intros [= <- <-]; reflexivity.
Qed.

(** A match is a prefix of the input: the two groups, then the rest. *)
Lemma match_at_Some s g l rest :
  match_at s = Some (g, l, rest) → s = g ++ level_name l ++ rest.
Proof.
  unfold match_at.
  destruct (take_minus s) as [sign s1] eqn:Es. apply take_minus_split in Es.
  destruct (span_digits s1) as [ds s2] eqn:Ed. apply span_digits_split in Ed.
  destruct Ed as [-> _].
  destruct ds as [|d ds]; [discriminate|].
  destruct (match_level s2) as [[l' r']|] eqn:El; [|discriminate].
  intros [= <- <- <-]. apply match_level_Some in El. subst.
  rewrite <- app_assoc. reflexivity.
Qed.

(** Every match of [matchAll] occurs in the input, followed by its level
    name. *)
Lemma matchAll_occurs s g l :
  (g, l) ∈ matchAll s → ∃ u v, s = u ++ g ++ level_name l ++ v.
Proof.
  remember (length s) as n eqn:Hn. revert s Hn g l.
  induction (lt_wf n) as [n _ IH]. intros s -> g l.
  destruct s as [|c s]; [simp matchAll; intros H; inversion H|].
  rewrite matchAll_cons.
  destruct (match_at (c :: s)) as [[[g' l'] rest]|] eqn:E.
  - intros [[= -> ->]|Hin]%elem_of_cons.
    + exists [], rest. apply match_at_Some in E. exact E.
    + pose proof (match_at_Some _ _ _ _ E) as Hs.
      assert (length rest < length (c :: s))%nat as Hlt.
      { rewrite Hs, !length_app. pose proof (level_name_nonempty l').
        destruct (level_name l'); [done|]. simpl. lia. }
      destruct (IH _ Hlt rest eq_refl g l Hin) as (u & v & ->).
      exists (g' ++ level_name l' ++ u), v. rewrite Hs.
      rewrite <- !app_assoc. reflexivity.
  - intros Hin.
    destruct (IH (length s) ltac:(simpl; lia) s eq_refl g l Hin) as (u & v & ->).
    exists (c :: u), v. reflexivity.
Qed.

(** The step of [getScoreComponents] writes one property and no other. *)
Lemma component_set_same l v c : component l (set_component l v c) = v.
Proof. destruct l; reflexivity. Qed.

Lemma component_set_other l l' v c :
  l ≠ l' → component l (set_component l' v c) = component l c.
Proof. destruct l, l'; intros H; try reflexivity; contradiction H; reflexivity. Qed.

Lemma getScoreComponents_chars_fold s :
  getScoreComponents_chars s = fold_left store (matchAll s) zero_components.
Proof. reflexivity. Qed.

Lemma fold_store_absent l ms c :
  (∀ g, (g, l) ∉ ms) → component l (fold_left store ms c) = component l c.
Proof.
  revert c. induction ms as [|[g l'] ms IH]; intros c Hnot; [reflexivity|].
  simpl. rewrite IH.
  - unfold store. simpl. apply component_set_other.
    intros <-. apply (Hnot g). left.
  - intros g' Hin. apply (Hnot g'). right. exact Hin.
Qed.

Lemma fold_store_last l g ms1 ms2 c :
  (∀ g', (g', l) ∉ ms2) →
  component l (fold_left store (ms1 ++ (g, l) :: ms2) c) = parseInt g.
Proof.
  intros Hnot. rewrite fold_left_app. simpl.
  rewrite fold_store_absent by exact Hnot.
  unfold store at 1. simpl. apply component_set_same.
Qed.

Lemma clean_before_suffix x w r : clean_before x (w ++ r) → clean_before x r.
Proof.
  intros H u z ->. apply (H (w ++ u) z). rewrite <- app_assoc. reflexivity.
Qed.

Lemma span_digits_app t X :
  t ≠ [] → (∀ u z, t = u ++ [z] → is_digit z = false) →
  span_digits (t ++ X) = ((span_digits t).1, (span_digits t).2 ++ X).
Proof.
  induction t as [|c t IH]; [done|]. intros _ Hlast. simpl.
  destruct (is_digit c) eqn:Ec; [|reflexivity].
  destruct t as [|c' t].
  - rewrite (Hlast [] c eq_refl) in Ec. discriminate.
  - rewrite IH; [|done|].
    + destruct (span_digits (c' :: t)). reflexivity.
    + intros u z E. apply (Hlast (c :: u) z). rewrite E. reflexivity.
Qed.

Lemma strip_prefix_app p r x X :
  x ∉ p →
  strip_prefix p (r ++ x :: X) = (λ r', r' ++ x :: X) <$> strip_prefix p r.
Proof.
  revert r. induction p as [|a p IH]; intros r Hx; [reflexivity|].
  destruct r as [|b r]; simpl.
  - destruct (decide (a = x)) as [->|]; [|reflexivity].
    exfalso. apply Hx. left.
  - destruct (decide (a = b)); [|reflexivity].
    apply IH. intros Hin. apply Hx. right. exact Hin.
Qed.

Lemma match_level_app r x X :
  is_digit x = true ∨ x = "-"%char →
  match_level (r ++ x :: X)
  = (λ m : Level * list ascii, (m.1, m.2 ++ x :: X)) <$> match_level r.
Proof.
  intros Hx.
  assert (∀ l, x ∉ level_name l) as Hnot.
  { intros l Hin. pose proof (level_name_no_digit l) as Hall.
    rewrite Forall_forall in Hall. destruct (Hall x Hin) as [Hd Hm].
    destruct Hx as [Hx| ->]; [congruence | done]. }
  unfold match_level. rewrite !strip_prefix_app by apply Hnot.
  destruct (strip_prefix (level_name Hard) r); [reflexivity|].
  destruct (strip_prefix (level_name Medium) r); [reflexivity|].
  destruct (strip_prefix (level_name Soft) r); reflexivity.
Qed.

(** A match attempt inside a clean prefix does not see what follows it. *)
Lemma match_at_app c p x X :
  is_digit x = true ∨ x = "-"%char →
  clean_before x (c :: p) →
  match_at ((c :: p) ++ x :: X)
  = (λ m : list ascii * Level * list ascii, (m.1, m.2 ++ x :: X))
    <$> match_at (c :: p).
Proof.
  intros Hx Hclean.
  assert (∀ t, t ≠ [] → (∃ w, c :: p = w ++ t) →
          ∀ sign,
            match span_digits (t ++ x :: X) with
            | (ds, s2) =>
                match ds with
                | [] => None
                | _ :: _ =>
                    match match_level s2 with
                    | Some (l, rest) => Some (sign ++ ds, l, rest)
                    | None => None
                    end
                end
            end
            = (λ m : list ascii * Level * list ascii, (m.1, m.2 ++ x :: X))
              <$> match span_digits t with
                  | (ds, s2) =>
                      match ds with
                      | [] => None
                      | _ :: _ =>
                          match match_level s2 with
                          | Some (l, rest) => Some (sign ++ ds, l, rest)
                          | None => None
                          end
                      end
                  end) as Hbody.
  { intros t Ht [w Hw] sign. rewrite span_digits_app; [|exact Ht|].
    - destruct (span_digits t) as [ds s2]. simpl.
      destruct ds as [|d ds]; [reflexivity|].
      rewrite match_level_app by exact Hx.
      destruct (match_level s2) as [[l rest]|]; reflexivity.
    - intros u z E. apply (Hclean (w ++ u) z).
      rewrite Hw, E, app_assoc. reflexivity. }
  unfold match_at. simpl take_minus.
  destruct (decide (c = "-"%char)) as [->|Hc].
  - destruct p as [|c' p].
    + simpl. destruct (Hclean [] "-"%char eq_refl) as [_ Hm].
      rewrite (Hm eq_refl). reflexivity.
    + apply (Hbody (c' :: p)); [done|]. exists ["-"%char]. reflexivity.
  - apply (Hbody (c :: p)); [done|]. exists []. reflexivity.
Qed.

(** Scanning a clean prefix and what follows it gives the matches of the
    prefix, then the matches of what follows. *)
Lemma matchAll_app pre x X :
  is_digit x = true ∨ x = "-"%char →
  clean_before x pre →
  matchAll (pre ++ x :: X) = matchAll pre ++ matchAll (x :: X).
Proof.
  intros Hx. remember (length pre) as n eqn:Hn. revert pre Hn.
  induction (lt_wf n) as [n _ IH]. intros pre -> Hclean.
  destruct pre as [|c p]; [rewrite matchAll_nil; reflexivity|].
  change ((c :: p) ++ x :: X) with (c :: (p ++ x :: X)).
  rewrite (matchAll_cons c (p ++ x :: X)), (matchAll_cons c p).
  change (c :: (p ++ x :: X)) with ((c :: p) ++ x :: X).
  rewrite match_at_app by assumption.
  destruct (match_at (c :: p)) as [[[g l] rest]|] eqn:E; simpl.
  - pose proof (match_at_Some _ _ _ _ E) as Hs. f_equal.
    apply (IH (length rest)); [|reflexivity|].
    + rewrite Hs, !length_app. pose proof (level_name_nonempty l).
      destruct (level_name l); [done|]. simpl. lia.
    + apply (clean_before_suffix x (g ++ level_name l)).
      rewrite <- app_assoc, <- Hs. exact Hclean.
  - apply (IH (length p)); [simpl; lia|reflexivity|].
    apply (clean_before_suffix x [c]). exact Hclean.
Qed.

Lemma digits_value_nonneg ds :
  Forall (λ c, is_digit c = true) ds → 0 ≤ digits_value ds.
Proof.
  intros Hds. unfold digits_value.
  assert (∀ acc, 0 ≤ acc
                 → 0 ≤ fold_left (λ acc c, 10 * acc + digit_value c) ds acc)
    as H; [|apply H; lia].
  induction Hds as [|d ds Hd _ IH]; intros acc Hacc; [exact Hacc|].
  simpl. apply IH. unfold digit_value. unfold is_digit in Hd.
  apply andb_true_iff in Hd as [Hd _]. apply Nat.leb_le in Hd. lia.
Qed.

Lemma two53_lt_overflow_bound : two53 < overflow_bound.
Proof. vm_compute. reflexivity. Qed.

(** Integers of magnitude at most 2^53 are Numbers as they are. *)
Lemma of_Z_safe z : Z.abs z ≤ two53 → of_Z z = Fin z.
Proof.
  intros Hz. pose proof two53_lt_overflow_bound as Hb. unfold of_Z.
  assert (round53 (Z.abs z) = Z.abs z) as ->.
  { unfold round53. destruct (Z.ltb_spec (Z.abs z) two53) as [|Hge]; [reflexivity|].
    assert (Z.abs z = two53) as -> by lia. vm_compute. reflexivity. }
  destruct (Z.leb_spec overflow_bound (Z.abs z)) as [Hle|_]; [lia|].
  f_equal. lia.
Qed.

Lemma parseInt_numeral neg ds :
  ds ≠ [] → Forall (λ c, is_digit c = true) ds →
  parseInt (minus_sign neg ++ ds) = of_Z (numeral_value neg ds).
Proof.
  intros Hne Hds.
  assert (span_digits ds = (ds, [])) as Hspan.
  { rewrite <- (app_nil_r ds) at 1. apply span_digits_run; done. }
  unfold parseInt, numeral_value. destruct neg; simpl.
  - rewrite Hspan. simpl. destruct ds; [done | reflexivity].
  - destruct ds as [|d ds]; [done|].
    pose proof (Forall_inv Hds) as Hd. simpl in Hd.
    destruct (decide (d = "-"%char)) as [->|_]; [discriminate Hd|].
    destruct (decide (d = "+"%char)) as [->|_]; [discriminate Hd|].
    rewrite Hspan. reflexivity.
Qed.

Lemma match_at_numeral neg ds l post :
  ds ≠ [] → Forall (λ c, is_digit c = true) ds →
  match_at (minus_sign neg ++ ds ++ level_name l ++ post)
  = Some (minus_sign neg ++ ds, l, post).
Proof.
  intros Hne Hds.
  assert (span_digits (ds ++ level_name l ++ post) = (ds, level_name l ++ post))
    as Hspan.
  { apply span_digits_run; [exact Hds|]. destruct l; reflexivity. }
  unfold match_at. destruct neg; simpl.
  - rewrite Hspan. destruct ds; [done|]. rewrite match_level_name. reflexivity.
  - destruct ds as [|d ds]; [done|].
    pose proof (Forall_inv Hds) as Hd. simpl in Hd.
    change ((d :: ds) ++ level_name l ++ post)
      with (d :: (ds ++ level_name l ++ post)) in *.
    unfold take_minus.
    destruct (decide (d = "-"%char)) as [->|_]; [discriminate Hd|].
    rewrite Hspan, match_level_name. reflexivity.
Qed.

(** The matches of a string around a numeral that is followed by a level
    name. *)
Lemma matchAll_numeral pre neg ds l post :
  ds ≠ [] → Forall (λ c, is_digit c = true) ds →
  (∀ z, last pre = Some z → is_digit z = false ∧ (z = "-"%char → neg = true)) →
  matchAll (pre ++ minus_sign neg ++ ds ++ level_name l ++ post)
  = matchAll pre ++ (minus_sign neg ++ ds, l) :: matchAll post.
Proof.
  intros Hne Hds Hpre.
  pose proof (match_at_numeral neg ds l post Hne Hds) as Hat.
  destruct (minus_sign neg ++ ds ++ level_name l ++ post) as [|x X] eqn:EX;
    [discriminate Hat|].
  assert (is_digit x = true ∨ x = "-"%char) as Hx.
  { destruct neg; simpl in EX.
    - injection EX as <- _. right. reflexivity.
    - destruct ds as [|d ds]; [done|]. injection EX as <- _.
      left. exact (Forall_inv Hds). }
  rewrite matchAll_app; [|exact Hx|].
  - rewrite matchAll_cons, Hat. reflexivity.
  - intros u z ->. destruct (Hpre z) as [Hz Hm]; [apply last_snoc|].
    split; [exact Hz|]. intros Ez. specialize (Hm Ez). subst neg.
    simpl in EX. injection EX as <- _. reflexivity.
Qed.

Lemma match_at_ends_with_digit s g l rest :
  match_at s = Some (g, l, rest) → ∃ g' d, g = g' ++ [d] ∧ is_digit d = true.
Proof.
  unfold match_at.
  destruct (take_minus s) as [sign s1].
  destruct (span_digits s1) as [ds s2] eqn:Ed. apply span_digits_split in Ed.
  destruct Ed as [_ Hds].
  destruct ds as [|d0 ds]; [discriminate|].
  destruct (match_level s2) as [[l' r']|]; [|discriminate].
  intros [= <- <- <-].
  destruct (exists_last (l := d0 :: ds)) as (ds' & d & E); [done|].
  rewrite E in Hds |- *.
  exists (sign ++ ds'), d. rewrite app_assoc. split; [reflexivity|].
  apply Forall_app in Hds as [_ Hd]. exact (Forall_inv Hd).
Qed.

(** Every match is a digit directly followed by the level name. *)
Lemma matchAll_digit_then_level s g l :
  (g, l) ∈ matchAll s →
  ∃ u d v, s = u ++ d :: level_name l ++ v ∧ is_digit d = true.
Proof.
  remember (length s) as n eqn:Hn. revert s Hn g l.
  induction (lt_wf n) as [n _ IH]. intros s -> g l.
  destruct s as [|c s]; [rewrite matchAll_nil; intros H; inversion H|].
  rewrite matchAll_cons.
  destruct (match_at (c :: s)) as [[[g' l'] rest]|] eqn:E.
  - pose proof (match_at_Some _ _ _ _ E) as Hs.
    intros [[= -> ->]|Hin]%elem_of_cons.
    + destruct (match_at_ends_with_digit _ _ _ _ E) as (g0 & d & -> & Hd).
      exists g0, d, rest. split; [|exact Hd].
      rewrite Hs, <- app_assoc. reflexivity.
    + assert (length rest < length (c :: s))%nat as Hlt.
      { rewrite Hs, !length_app. pose proof (level_name_nonempty l').
        destruct (level_name l'); [done|]. simpl. lia. }
      destruct (IH _ Hlt rest eq_refl g l Hin) as (u & d & v & -> & Hd).
      exists (g' ++ level_name l' ++ u), d, v. split; [|exact Hd].
      rewrite Hs, <- !app_assoc. reflexivity.
  - intros Hin.
    destruct (IH (length s) ltac:(simpl; lia) s eq_refl g l Hin)
      as (u & d & v & -> & Hd).
    exists (c :: u), d, v. split; [reflexivity | exact Hd].
Qed.

End ScoreFacts.

(** C5 (as amended).  For every score string and every level: when the
    string holds a signed decimal integer (the whole run of digits, with the
    ["-"] before it if there is one) directly followed by the level's name,
    no digit directly followed by that name comes later, and the integer is
    of magnitude at most 2^53, the field of that level returned by
    [getScoreComponents] is that integer; and when the level's name does not
    occur in the string, the field is 0. *)
Theorem getScoreComponents_level (score : string) (l : Level) :
  (∀ (pre : list ascii) (neg : bool) (ds post : list ascii),
     String.list_ascii_of_string score
     = pre ++ minus_sign neg ++ ds ++ level_name l ++ post →
     ds ≠ [] →
     Forall (λ c, is_digit c = true) ds →
     (∀ z, last pre = Some z → is_digit z = false ∧ (z = "-"%char → neg = true)) →
     (∀ u d v, post = u ++ d :: level_name l ++ v → is_digit d = false) →
     digits_value ds ≤ two53 →
     component l (getScoreComponents score) = Fin (numeral_value neg ds))
  ∧ ((∀ u v, String.list_ascii_of_string score ≠ u ++ level_name l ++ v) →
     component l (getScoreComponents score) = Fin 0).
Proof.
  unfold getScoreComponents. split.
  - intros pre neg ds post -> Hne Hds Hpre Hpost Hbound.
    rewrite ScoreFacts.getScoreComponents_chars_fold.
    rewrite ScoreFacts.matchAll_numeral by assumption.
    rewrite ScoreFacts.fold_store_last.
    + rewrite ScoreFacts.parseInt_numeral by assumption.
      apply ScoreFacts.of_Z_safe.
      pose proof (ScoreFacts.digits_value_nonneg ds Hds) as Hpos.
      unfold numeral_value. destruct neg; lia.
    + intros g Hin.
      destruct (ScoreFacts.matchAll_digit_then_level _ _ _ Hin) as (u & d & v & E & Hd).
      rewrite (Hpost u d v E) in Hd. discriminate.
  - intros Habsent. rewrite ScoreFacts.getScoreComponents_chars_fold.
    rewrite ScoreFacts.fold_store_absent; [destruct l; reflexivity|].
    intros g Hin.
    destruct (ScoreFacts.matchAll_occurs _ _ _ Hin) as (u & v & E).
    exact (Habsent (u ++ g) v ltac:(rewrite E, <- app_assoc; reflexivity)).
Qed.

Lemma getScoreComponents_level_witness :
  component Soft (getScoreComponents "0hard/-7soft") = Fin (-7)
  ∧ component Medium (getScoreComponents "0hard/-7soft") = Fin 0.
Proof.
  split.
  - apply (proj1 (getScoreComponents_level "0hard/-7soft" Soft)
             (String.list_ascii_of_string "0hard/") true ["7"%char] []).
    + reflexivity.
    + discriminate.
    + repeat constructor.
    + intros z [= <-]. split; [reflexivity | discriminate].
    + intros [|? u] d v; discriminate.
    + vm_compute. discriminate.
  - apply (proj2 (getScoreComponents_level "0hard/-7soft" Medium)).
    intros u v H. simpl in H.
    repeat (destruct u as [|? u]; [discriminate H | injection H as _ H]).
    destruct u; discriminate H.
Defined.

(** C5, counterexample: an integer above 2^53 before the level name is
    not the value of the field; [parseInt] rounds it to a double. *)
Lemma getScoreComponents_large_integer :
  digits_value (String.list_ascii_of_string "9007199254740993") = 9007199254740993
  ∧ component Hard (getScoreComponents "9007199254740993hard") = Fin 9007199254740992
  ∧ component Hard (getScoreComponents "9007199254740993hard") ≠ Fin 9007199254740993.
Proof.
  split; [vm_compute; reflexivity|].
  split; [vm_compute; reflexivity|].
  vm_compute. discriminate.
Qed.

(** ** The comparator of [analyze] *)

(** C1.  The comparator is not the lexicographic order of the
    specification.  A constraint that only has a soft penalty (score
    [0hard/-5soft]) and one with a hard penalty (score [-3hard/0soft]) are
    each placed before the other by the comparator, while the order of the
    specification puts the hard one first: at the hard level the comparator
    only returns when [a]'s absolute value is the larger one, and goes on to
    the medium and soft levels when it is the smaller one. *)
Theorem compareConstraints_not_lexicographic :
  let a := Analysis.mkConstraintAnalysis
             "Teacher room stability" "0hard/-1soft" "0hard/-5soft" ["m1"; "m2"] in
  let b := Analysis.mkConstraintAnalysis
             "Room conflict" "-1hard/0soft" "-3hard/0soft" ["m3"] in
  getScoreComponents (Analysis.score a) = mkComponents (Fin 0) (Fin 0) (Fin (-5))
  ∧ getScoreComponents (Analysis.score b) = mkComponents (Fin (-3)) (Fin 0) (Fin 0)
  ∧ Analysis.compareConstraints a b = Fin (-5)
  ∧ Analysis.compareConstraints b a = Fin (-1)
  ∧ Analysis.sorts_before a b = true
  ∧ Analysis.sorts_before b a = true
  ∧ ScoreOrder.score_precedes (0, 0, -5) (-3, 0, 0) = false
  ∧ ScoreOrder.score_precedes (-3, 0, 0) (0, 0, -5) = true.
Proof. vm_compute. repeat split; reflexivity. Qed.

(** The second test of the hard level reads [bComponents.soft]: with equal
    hard and medium components of [b], the result changes with [b]'s soft
    component although the hard components differ. *)
Lemma compareConstraints_reads_soft_at_hard_level :
  let a := Analysis.mkConstraintAnalysis "a" "1hard/0soft" "2hard/0soft" [] in
  let b := Analysis.mkConstraintAnalysis "b" "1hard/0soft" "1hard/-1soft" [] in
  let b' := Analysis.mkConstraintAnalysis "b" "1hard/0soft" "1hard/0soft" [] in
  Analysis.compareConstraints a b = Fin 1
  ∧ Analysis.compareConstraints a b' = Fin (-1)
  ∧ ScoreOrder.score_precedes (2, 0, 0) (1, 0, -1) = true
  ∧ ScoreOrder.score_precedes (2, 0, 0) (1, 0, 0) = true.
Proof. vm_compute. repeat split; reflexivity. Qed.

(** Where the comparator and the order agree: scores that only differ at
    the soft level. *)
Lemma compareConstraints_soft_level (a b : Analysis.ConstraintAnalysis) (x y : Z) :
  getScoreComponents (Analysis.score a) = mkComponents (Fin 0) (Fin 0) (Fin x) →
  getScoreComponents (Analysis.score b) = mkComponents (Fin 0) (Fin 0) (Fin y) →
  Z.abs x ≤ two53 → Z.abs y ≤ two53 →
  Analysis.sorts_before a b = ScoreOrder.score_precedes (0, 0, x) (0, 0, y).
Proof.
  intros Ha Hb Hx Hy.
  unfold Analysis.sorts_before, Analysis.compareConstraints.
  rewrite Ha, Hb.
  unfold ScoreOrder.score_precedes, ScoreOrder.level_tie, ScoreOrder.level_before,
    num_gt, num_lt. simpl.
  destruct (Z.ltb_spec x 0), (Z.ltb_spec 0 y), (Z.ltb_spec 0 x), (Z.ltb_spec y 0);
    simpl; try lia; try reflexivity;
    try (rewrite ScoreFacts.of_Z_safe by lia; simpl;
         destruct (Z.ltb_spec (Z.abs y - Z.abs x) 0), (Z.ltb_spec (Z.abs y) (Z.abs x));
         simpl; try reflexivity; lia).
Qed.

(** ** [analyze] *)
Module AnalyzeFacts.

Import Ui.

Lemma insert_sorted_perm cmp x l : insert_sorted cmp x l ≡ₚ x :: l.
Proof.
  induction l as [|y l IH]; simpl; [reflexivity|].
  destruct (num_gt (cmp y x) (Fin 0)); [reflexivity|].
  rewrite IH. apply Permutation_swap.
Qed.

Lemma insertion_sort_perm cmp l : insertion_sort cmp l ≡ₚ l.
Proof.
  induction l as [|x l IH]; simpl; [reflexivity|].
  rewrite insert_sorted_perm, IH. reflexivity.
Qed.


End AnalyzeFacts.


(** C7.  [analyze] and the callback that handles its response leave the
    loaded schedule as it is (its score and every lesson with its timeslot
    and room), whatever the page and the response; the request carries that
    schedule.  What the callback changes is the response: its constraints
    are the ones received, reordered by [sort] and each with [type],
    [weight] and [implicitScore] derived from its weight and score strings;
    on the page it only writes the modal. *)
Theorem analyze_leaves_schedule
    (sort : (Analysis.ConstraintAnalysis → Analysis.ConstraintAnalysis → Number)
            → list Analysis.ConstraintAnalysis → list Analysis.ConstraintAnalysis)
    (app : Ui.App) (scoreAnalysis : list Analysis.ConstraintAnalysis) (p : Ui.Page) :
  (∀ cmp l, sort cmp l ≡ₚ l) →
  Ui.loadedSchedule (Ui.page_of (Ui.analyze app p)) = Ui.loadedSchedule p
  ∧ (∀ request, request ∈ Ui.requests (Ui.page_of (Ui.analyze app p)) →
       request ∈ Ui.requests p ∨ Some (Ui.body request) = Ui.loadedSchedule p)
  ∧ Ui.loadedSchedule (Ui.analyzeDone sort app scoreAnalysis p).2 = Ui.loadedSchedule p
  ∧ Ui.tables (Ui.analyzeDone sort app scoreAnalysis p).2 = Ui.tables p
  ∧ Ui.controls (Ui.analyzeDone sort app scoreAnalysis p).2 = Ui.controls p
  ∧ Ui.scoreText (Ui.analyzeDone sort app scoreAnalysis p).2 = Ui.scoreText p
  ∧ Ui.requests (Ui.analyzeDone sort app scoreAnalysis p).2 = Ui.requests p
  ∧ (Ui.analyzeDone sort app scoreAnalysis p).1
    = map Ui.derive (sort Analysis.compareConstraints scoreAnalysis)
  ∧ map (λ c, (Ui.a_name c, Ui.a_score c, Ui.a_matches c))
        (Ui.analyzeDone sort app scoreAnalysis p).1
    ≡ₚ map (λ e, (Analysis.name e, Analysis.score e, Analysis.matches e))
           scoreAnalysis.
Proof.
  intros Hperm. split; [|split].
  - unfold Ui.analyze. simpl.
    destruct (Ui.loadedSchedule p) as [schedule|] eqn:E; [|simpl; congruence].
    destruct (Ui.score schedule); simpl; congruence.
  - intros request. unfold Ui.analyze. simpl.
    destruct (Ui.loadedSchedule p) as [schedule|] eqn:E; [|left; assumption].
    destruct (Ui.score schedule); simpl; [|left; assumption].
    intros [Hin|Hin]%elem_of_app; [left; assumption|].
    apply list_elem_of_singleton in Hin as ->. right. reflexivity.
  - repeat split; try reflexivity.
    simpl. rewrite map_map. simpl.
    rewrite (Hperm Analysis.compareConstraints scoreAnalysis). reflexivity.
Qed.

Lemma analyze_leaves_schedule_witness :
  let schedule :=
    Ui.mkTimetable (Some "NOT_SOLVING") (Some "-1hard/-2soft")
      [Ui.mkLesson "1" "Math" "A. Turing" "9th grade" (Some "1") (Some "1")]
      [Ui.mkRoom "1" "Room A"] [Ui.mkTimeslot "1" "MONDAY" "08:30:00" "09:30:00"] in
  let p := Ui.with_loadedSchedule (Some schedule) (Ui.initial_page 1) in
  let response :=
    [Analysis.mkConstraintAnalysis "Teacher room stability" "0hard/-1soft"
       "0hard/-2soft" ["m1"; "m2"];
     Analysis.mkConstraintAnalysis "Room conflict" "-1hard/0soft" "-1hard/0soft"
       ["m3"]] in
  Ui.loadedSchedule (Ui.page_of (Ui.analyze Ui.SchoolTimetabling p)) = Some schedule
  ∧ Ui.loadedSchedule (Ui.analyzeDone Ui.insertion_sort Ui.SchoolTimetabling response p).2
    = Some schedule.
Proof.
  intros schedule p response.
  pose proof (analyze_leaves_schedule Ui.insertion_sort Ui.SchoolTimetabling
                response p AnalyzeFacts.insertion_sort_perm) as H.
  split; [apply H | apply H].
Defined.

(** C2 (as amended).  [analyze] on a loaded schedule asks the server for a
    re-evaluation only when the schedule has a score: with a score it sends
    one request with the loaded schedule to the analyze URL and shows the
    score in the label; with the score [null] it sends nothing and shows
    the text that asks to press 'solve' first. *)
Theorem analyze_needs_score (app : Ui.App) (p : Ui.Page) (schedule : Ui.Timetable) :
  Ui.loadedSchedule p = Some schedule →
  match Ui.score schedule with
  | Some sc =>
      ∃ p', Ui.analyze app p = Ui.Completed p'
            ∧ Ui.requests p' = Ui.requests p ++ [Ui.mkRequest (Ui.analyzeUrl app) schedule]
            ∧ Ui.scoreLabel (Ui.modal p') = "(" +:+ sc +:+ ")"
            ∧ Ui.modalShown (Ui.modal p') = true
  | None =>
      ∃ p', Ui.analyze app p = Ui.Completed p'
            ∧ Ui.requests p' = Ui.requests p
            ∧ Ui.contentText (Ui.modal p') = Ui.noScoreMessage
            ∧ Ui.contentTable (Ui.modal p') = None
            ∧ Ui.modalShown (Ui.modal p') = true
  end.
Proof.
  intros Hloaded. unfold Ui.analyze. simpl. rewrite Hloaded.
  destruct (Ui.score schedule) as [sc|]; eexists; repeat split; reflexivity.
Qed.

Lemma analyze_needs_score_witness :
  let schedule :=
    Ui.mkTimetable (Some "NOT_SOLVING") (Some "-1hard/-2soft")
      [Ui.mkLesson "1" "Math" "A. Turing" "9th grade" (Some "1") (Some "1")]
      [Ui.mkRoom "1" "Room A"] [Ui.mkTimeslot "1" "MONDAY" "08:30:00" "09:30:00"] in
  let p := Ui.with_loadedSchedule (Some schedule) (Ui.initial_page 1) in
  ∃ p', Ui.analyze Ui.SchoolTimetabling p = Ui.Completed p'
        ∧ Ui.requests p' = [Ui.mkRequest "/timetables/analyze" schedule]
        ∧ Ui.scoreLabel (Ui.modal p') = "(-1hard/-2soft)"
        ∧ Ui.modalShown (Ui.modal p') = true.
Proof.
  intros schedule p.
  exact (analyze_needs_score Ui.SchoolTimetabling p schedule eq_refl).
Defined.

(** C2, counterexample: the demo timetable as it is loaded before any
    solving has no score; [analyze] on it sends no request and shows no
    table. *)
Lemma analyze_without_score :
  let schedule :=
    Ui.mkTimetable None None
      [Ui.mkLesson "1" "Math" "A. Turing" "9th grade" None None]
      [Ui.mkRoom "1" "Room A"] [Ui.mkTimeslot "1" "MONDAY" "08:30:00" "09:30:00"] in
  let loaded := Ui.page_of (Ui.scheduleLoaded schedule (Ui.initial_page 1)) in
  let analysed := Ui.page_of (Ui.analyze Ui.SchoolTimetabling loaded) in
  Ui.loadedSchedule loaded = Some schedule
  ∧ Ui.requests analysed = []
  ∧ Ui.contentTable (Ui.modal analysed) = None
  ∧ Ui.contentText (Ui.modal analysed)
    = "No score to analyze yet, please first press the 'solve' button.".
Proof. vm_compute. repeat split; reflexivity. Qed.

(** ** The solving controls *)
Module ControlsFacts.

Import Ui.

Lemma refreshSolvingButtons_consistent solving c :
  controls_consistent c → controls_consistent (refreshSolvingButtons solving c).
Proof.
  unfold controls_consistent, refreshSolvingButtons.
  destruct solving; simpl; destruct (autoRefreshIntervalId c) as [h|] eqn:E; simpl.
  - trivial.
  - intros ->. reflexivity.
  - intros ->. rewrite filter_cons_False; [reflexivity|].
    simpl. intros H. apply H. reflexivity.
  - trivial.
Qed.

Lemma refreshSolvingButtons_calls_consistent calls c :
  controls_consistent c → controls_consistent (refreshSolvingButtons_calls calls c).
Proof.
  revert c. induction calls as [|solving calls IH]; intros c Hc; [exact Hc|].
  apply IH, refreshSolvingButtons_consistent, Hc.
Qed.

Lemma refreshSolvingButtons_true c :
  controls_consistent c → solving_mode (refreshSolvingButtons true c).
Proof.
  unfold solving_mode, controls_consistent, refreshSolvingButtons. simpl.
  destruct (autoRefreshIntervalId c) as [h|] eqn:E; simpl; rewrite ?E; intros Hc.
  - repeat split. exists h. split; [reflexivity | exact Hc].
  - repeat split. eexists. split; [reflexivity|]. rewrite Hc. reflexivity.
Qed.

Lemma refreshSolvingButtons_false c :
  controls_consistent c → idle_mode (refreshSolvingButtons false c).
Proof.
  unfold idle_mode, controls_consistent, refreshSolvingButtons. simpl.
  destruct (autoRefreshIntervalId c) as [h|] eqn:E; simpl; rewrite ?E; intros Hc.
  - repeat split. rewrite Hc, filter_cons_False; [reflexivity|].
    simpl. intros H. apply H. reflexivity.
  - repeat split. exact Hc.
Qed.

Lemma modes_exclusive c : solving_mode c → idle_mode c → False.
Proof. intros (H & _) (H' & _). congruence. Qed.

End ControlsFacts.

(** C10.  From the page as the script starts with it, after any sequence
    of calls of [refreshSolvingButtons] and one more call: the variable
    [autoRefreshIntervalId] is non-null if and only if that call's argument
    was true; at most one interval is active, the one the variable names; a
    call with [true] while an interval exists leaves that interval and the
    variable as they are; a call with [false] leaves no interval and
    [null]. *)
Theorem refreshSolvingButtons_single_interval
    (firstHandle : nat) (calls : list bool) (solving : bool) :
  let before := Ui.refreshSolvingButtons_calls calls
                  (Ui.controls (Ui.initial_page firstHandle)) in
  let after := Ui.refreshSolvingButtons solving before in
  (is_Some (Ui.autoRefreshIntervalId after) ↔ solving = true)
  ∧ (length (Ui.intervals after) ≤ 1)%nat
  ∧ Ui.controls_consistent after
  ∧ (solving = true → is_Some (Ui.autoRefreshIntervalId before) →
     Ui.intervals after = Ui.intervals before
     ∧ Ui.autoRefreshIntervalId after = Ui.autoRefreshIntervalId before)
  ∧ (solving = false →
     Ui.autoRefreshIntervalId after = None ∧ Ui.intervals after = []).
Proof.
  intros before after.
  assert (Ui.controls_consistent before) as Hb.
  { apply ControlsFacts.refreshSolvingButtons_calls_consistent. reflexivity. }
  pose proof (ControlsFacts.refreshSolvingButtons_consistent solving before Hb) as Ha.
  fold after in Ha.
  split; [|split; [|split; [exact Ha|split]]].
  - destruct solving.
    + destruct (ControlsFacts.refreshSolvingButtons_true before Hb)
        as (_ & _ & h & Hh & _).
      fold after in Hh. rewrite Hh. split; [reflexivity | eauto].
    + destruct (ControlsFacts.refreshSolvingButtons_false before Hb)
        as (_ & _ & Hh & _).
      fold after in Hh. rewrite Hh. split; [intros [? ?]; discriminate | discriminate].
  - unfold Ui.controls_consistent in Ha.
    destruct (Ui.autoRefreshIntervalId after); rewrite Ha; simpl; lia.
  - intros -> [h Hh]. subst after. unfold Ui.refreshSolvingButtons. simpl.
    rewrite Hh. split; reflexivity.
  - intros ->.
    destruct (ControlsFacts.refreshSolvingButtons_false before Hb)
      as (_ & _ & Hh & Hi).
    split; assumption.
Qed.

(** ** [renderSchedule] *)
Module RenderFacts.

Import Ui.

Lemma place_lessons_aborted ls p : place_lessons ls (Aborted p) = Aborted p.
Proof. induction ls as [|l ls IH]; [reflexivity | exact IH]. Qed.

Lemma place_lessons_step l ls p p' :
  place_lessons (l :: ls) (Completed p) = Completed p' →
  ∃ p1, place_lesson l p = Completed p1
        ∧ place_lessons ls (Completed p1) = Completed p'.
Proof.
  unfold place_lessons. simpl. fold (place_lessons ls (place_lesson l p)).
  destruct (place_lesson l p) as [p1|p1]; [eauto|].
  rewrite place_lessons_aborted. discriminate.
Qed.

(** The loop over the lessons writes the tables and the colours only. *)
Lemma jq_append_controls id card p :
  controls (page_of (jq_append id card p)) = controls p.
Proof. unfold jq_append. destruct (plain_id id); reflexivity. Qed.

Lemma place_lesson_controls l p :
  controls (page_of (place_lesson l p)) = controls p.
Proof.
  unfold place_lesson. destruct (pickColor (subject l) (colors p)) as [color cs].
  destruct (timeslot l) as [ts|], (room l) as [rm|]; try reflexivity.
  unfold jq_append.
  destruct (plain_id (room_cell_id ts rm)); [|reflexivity]. simpl.
  destruct (plain_id (teacher_cell_id ts (teacher l))); [|reflexivity]. simpl.
  destruct (plain_id (studentGroup_cell_id ts (studentGroup l))); reflexivity.
Qed.

Lemma place_lessons_controls ls o :
  controls (page_of (place_lessons ls o)) = controls (page_of o).
Proof.
  revert o. induction ls as [|l ls IH]; intros o; [reflexivity|].
  unfold place_lessons. simpl. fold (place_lessons ls (and_then o (place_lesson l))).
  rewrite IH. destruct o as [p|p]; [apply place_lesson_controls | reflexivity].
Qed.

Lemma renderSchedule_controls timetable p :
  controls (page_of (renderSchedule timetable p))
  = refreshSolvingButtons (isSolving (solverStatus timetable)) (controls p).
Proof.
  unfold renderSchedule.
  match goal with
  | |- context [place_lessons ?ls ?o] =>
      pose proof (place_lessons_controls ls o) as H;
      destruct (place_lessons ls o) as [p1|p1]
  end; simpl in *.
  - destruct (unassignedLessons (tables p1)); simpl; exact H.
  - exact H.
Qed.

Lemma isSolving_spec status :
  isSolving status = true ↔ ∃ s, status = Some s ∧ s ≠ "NOT_SOLVING".
Proof.
  destruct status as [s|]; simpl.
  - rewrite bool_decide_eq_true. split; [eauto|]. intros (? & [= <-] & ?). assumption.
  - split; [discriminate|]. intros (? & [=] & _).
Qed.

End RenderFacts.

(** C6.  [renderSchedule] leaves the page in solving mode (solve hidden,
    stop shown, one interval of 2000 ms active and held in
    [autoRefreshIntervalId]) if and only if the payload's [solverStatus] is
    non-null and different from ["NOT_SOLVING"], and in idle mode (solve
    shown, stop hidden, no interval, [autoRefreshIntervalId] null)
    otherwise; this holds also when the rendering of the lessons is left
    early.  The page before is any page on which the timer and the variable
    agree, as they do on every page the script produces.  The controls are
    those that the first statement of [renderSchedule] leaves, the call of
    [refreshSolvingButtons] that both front ends make. *)
Theorem renderSchedule_solving_mode (timetable : Ui.Timetable) (p : Ui.Page) :
  Ui.controls_consistent (Ui.controls p) →
  let after := Ui.controls (Ui.page_of (Ui.renderSchedule timetable p)) in
  let solving := ∃ status, Ui.solverStatus timetable = Some status
                           ∧ status ≠ "NOT_SOLVING" in
  after = Ui.refreshSolvingButtons (Ui.isSolving (Ui.solverStatus timetable))
                                   (Ui.controls p)
  ∧ (Ui.solving_mode after ↔ solving)
  ∧ (Ui.idle_mode after ↔ ¬ solving)
  ∧ Ui.controls_consistent after.
Proof.
  intros Hc after solving. subst after.
  rewrite RenderFacts.renderSchedule_controls.
  pose proof (RenderFacts.isSolving_spec (Ui.solverStatus timetable)) as Hs.
  fold solving in Hs.
  split; [reflexivity|]. split; [|split].
  - destruct (Ui.isSolving (Ui.solverStatus timetable)).
    + split; [intros _; apply Hs; reflexivity|].
      intros _. apply ControlsFacts.refreshSolvingButtons_true, Hc.
    + split; [|intros H; apply Hs in H; discriminate].
      intros H. exfalso.
      exact (ControlsFacts.modes_exclusive _ H
               (ControlsFacts.refreshSolvingButtons_false _ Hc)).
  - destruct (Ui.isSolving (Ui.solverStatus timetable)).
    + split; [|intros H; exfalso; apply H, Hs; reflexivity].
      intros H. exfalso.
      exact (ControlsFacts.modes_exclusive _
               (ControlsFacts.refreshSolvingButtons_true _ Hc) H).
    + split; [intros _ H; apply Hs in H; discriminate|].
      intros _. apply ControlsFacts.refreshSolvingButtons_false, Hc.
  - apply ControlsFacts.refreshSolvingButtons_consistent, Hc.
Qed.

Lemma renderSchedule_solving_mode_witness :
  let timetable :=
    Ui.mkTimetable (Some "SOLVING_ACTIVE") (Some "-1hard/-2soft")
      [Ui.mkLesson "1" "Math" "A. Turing" "9th grade" (Some "1") (Some "1")]
      [Ui.mkRoom "1" "Room A"] [Ui.mkTimeslot "1" "MONDAY" "08:30:00" "09:30:00"] in
  Ui.solving_mode
    (Ui.controls (Ui.page_of (Ui.renderSchedule timetable (Ui.initial_page 1)))).
Proof.
  intros timetable.
  apply (proj2 (renderSchedule_solving_mode timetable (Ui.initial_page 1) eq_refl)).
  exists "SOLVING_ACTIVE". split; [reflexivity | discriminate].
Defined.

(** ** [pickColor] *)
Module ColorFacts.

Import Ui.

Lemma elem_of_distinct x xs : x ∈ distinct xs ↔ x ∈ xs.
Proof.
  induction xs as [|y xs IH]; simpl; [reflexivity|].
  rewrite !elem_of_cons, list_elem_of_filter, IH.
  destruct (decide (x = y)) as [->|Hne]; [split; intros _; left; reflexivity|].
  split; [intros [?|[_ ?]]; [done | right; assumption]|].
  intros [?|?]; [done | right; split; assumption].
Qed.

Lemma NoDup_distinct xs : NoDup (distinct xs).
Proof.
  induction xs as [|y xs IH]; simpl; [constructor|].
  constructor.
  - rewrite list_elem_of_filter. intros [H _]. apply H. reflexivity.
  - apply NoDup_filter, IH.
Qed.

Lemma index_of_app_l key seen rest :
  key ∈ seen → index_of key (seen ++ rest) = index_of key seen.
Proof.
  induction seen as [|k seen IH]; [inversion 1|]. simpl.
  destruct (decide (k = key)); [reflexivity|].
  intros [->|Hin]%elem_of_cons; [done|]. rewrite IH by exact Hin. reflexivity.
Qed.

Lemma index_of_app_r key seen rest :
  key ∉ seen → index_of key (seen ++ key :: rest) = length seen.
Proof.
  induction seen as [|k seen IH]; simpl.
  - intros _. rewrite decide_True by reflexivity. reflexivity.
  - intros Hnot. apply not_elem_of_cons in Hnot as [Hne Hnot].
    rewrite decide_False by congruence. rewrite IH by exact Hnot. reflexivity.
Qed.

Lemma colors_of_initial : colors_of [] initial_colors.
Proof.
  split; [reflexivity|]. intros key. cbn [initial_colors COLOR_MAP].
  rewrite lookup_empty.
  destruct (decide (key ∈ [])) as [H|_]; [inversion H | reflexivity].
Qed.

(** One call: a key already seen gets its colour back and nothing changes;
    a new key gets the colour at the next index and is recorded. *)
Lemma pickColor_seen key seen c :
  colors_of seen c → key ∈ seen →
  pickColor key c = (palette_color (index_of key seen), c).
Proof.
  intros [_ Hmap] Hin. unfold pickColor. rewrite Hmap.
  rewrite decide_True by exact Hin. reflexivity.
Qed.

Lemma pickColor_new key seen c :
  colors_of seen c → key ∉ seen →
  (pickColor key c).1 = palette_color (length seen)
  ∧ colors_of (seen ++ [key]) (pickColor key c).2.
Proof.
  intros [Hnext Hmap] Hnot. unfold pickColor. rewrite Hmap.
  rewrite decide_False by exact Hnot. simpl. rewrite Hnext.
  split; [reflexivity|]. split.
  - simpl. rewrite length_app. simpl. lia.
  - intros k. simpl. destruct (decide (k = key)) as [->|Hne].
    + rewrite lookup_insert_eq.
      rewrite decide_True by (apply elem_of_app; right; left).
      rewrite index_of_app_r by exact Hnot. reflexivity.
    + rewrite lookup_insert_ne by congruence. rewrite Hmap.
      destruct (decide (k ∈ seen)) as [Hin|Hout].
      * rewrite decide_True by (apply elem_of_app; left; exact Hin).
        rewrite index_of_app_l by exact Hin. reflexivity.
      * rewrite decide_False; [reflexivity|].
        intros [?|Hk]%elem_of_app; [done|].
        apply list_elem_of_singleton in Hk. done.
Qed.

Lemma filter_not_seen_known (key : string) (seen l : list string) :
  key ∈ seen →
  filter (λ y, y ∉ seen) (filter (λ y, y ≠ key) l) = filter (λ y, y ∉ seen) l.
Proof.
  intros Hin. induction l as [|x l IH]; [reflexivity|].
  destruct (decide (x = key)) as [->|Hne].
  - rewrite (filter_cons_False (λ y, y ≠ key)) by (intros H; apply H; reflexivity).
    rewrite (filter_cons_False (λ y, y ∉ seen)) by (intros H; apply H; exact Hin).
    exact IH.
  - rewrite (filter_cons_True (λ y, y ≠ key)) by exact Hne.
    destruct (decide (x ∈ seen)) as [Hx|Hx].
    + rewrite !(filter_cons_False (λ y, y ∉ seen)) by (intros H; apply H; exact Hx).
      exact IH.
    + rewrite !(filter_cons_True (λ y, y ∉ seen)) by exact Hx.
      rewrite IH. reflexivity.
Qed.

Lemma filter_not_seen_new (key : string) (seen l : list string) :
  filter (λ y, y ∉ seen ++ [key]) l
  = filter (λ y, y ∉ seen) (filter (λ y, y ≠ key) l).
Proof.
  induction l as [|x l IH]; [reflexivity|].
  destruct (decide (x = key)) as [->|Hne].
  - rewrite (filter_cons_False (λ y, y ≠ key)) by (intros H; apply H; reflexivity).
    rewrite (filter_cons_False (λ y, y ∉ seen ++ [key]));
      [exact IH|].
    intros H. apply H, elem_of_app. right. left.
  - rewrite (filter_cons_True (λ y, y ≠ key)) by exact Hne.
    destruct (decide (x ∈ seen)) as [Hx|Hx].
    + rewrite (filter_cons_False (λ y, y ∉ seen)) by (intros H; apply H; exact Hx).
      rewrite (filter_cons_False (λ y, y ∉ seen ++ [key]));
        [exact IH|].
      intros H. apply H, elem_of_app. left. exact Hx.
    + rewrite (filter_cons_True (λ y, y ∉ seen)) by exact Hx.
      rewrite (filter_cons_True (λ y, y ∉ seen ++ [key])); [rewrite IH; reflexivity|].
      intros [?|Hk]%elem_of_app; [done|].
      apply list_elem_of_singleton in Hk. done.
Qed.

(** A sequence of calls from colours that hold [seen]: every call returns
    the palette colour at the position of its key among the distinct
    keys. *)
Lemma pickColors_colors_of keys seen c :
  colors_of seen c →
  let all := seen ++ filter (λ y, y ∉ seen) (distinct keys) in
  (pickColors keys c).1 = map (λ key, palette_color (index_of key all)) keys
  ∧ colors_of all (pickColors keys c).2.
Proof.
  revert seen c. induction keys as [|key keys IH]; intros seen c Hc; simpl.
  - rewrite app_nil_r. split; [reflexivity | exact Hc].
  - destruct (decide (key ∈ seen)) as [Hin|Hnot].
    + rewrite (pickColor_seen key seen c Hc Hin).
      specialize (IH seen c Hc). simpl in IH.
      destruct (pickColors keys c) as [colors c'] eqn:E. simpl in *.
      rewrite (filter_cons_False (λ y, y ∉ seen)) by (intros H; apply H; exact Hin).
      rewrite filter_not_seen_known by exact Hin.
      destruct IH as [-> Hc']. split; [|exact Hc'].
      rewrite index_of_app_l by exact Hin. reflexivity.
    + destruct (pickColor_new key seen c Hc Hnot) as [Hcol Hc1].
      destruct (pickColor key c) as [color c1] eqn:E1. simpl in Hcol, Hc1.
      specialize (IH (seen ++ [key]) c1 Hc1). simpl in IH.
      destruct (pickColors keys c1) as [colors c'] eqn:E. simpl in *.
      rewrite (filter_cons_True (λ y, y ∉ seen)) by exact Hnot.
      rewrite filter_not_seen_new, <- app_assoc in IH. simpl in IH.
      destruct IH as [-> Hc']. split; [|exact Hc'].
      rewrite index_of_app_r by exact Hnot. rewrite Hcol. reflexivity.
Qed.

Lemma filter_not_nil (l : list string) : filter (λ y, y ∉ []) l = l.
Proof.
  induction l as [|x l IH]; [reflexivity|].
  rewrite filter_cons_True by apply not_elem_of_nil. rewrite IH. reflexivity.
Qed.

(** What is recorded stays recorded, with the same colour. *)
Lemma pickColor_extends key c : COLOR_MAP c ⊆ COLOR_MAP (pickColor key c).2.
Proof.
  unfold pickColor. destruct (COLOR_MAP c !! key) eqn:E; simpl; [reflexivity|].
  apply insert_subseteq. exact E.
Qed.

Lemma pickColor_recorded key c :
  COLOR_MAP (pickColor key c).2 !! key = Some (pickColor key c).1.
Proof.
  unfold pickColor. destruct (COLOR_MAP c !! key) eqn:E; simpl; [exact E|].
  apply lookup_insert_eq.
Qed.

Lemma pickColor_known key c color :
  COLOR_MAP c !! key = Some color → pickColor key c = (color, c).
Proof. intros H. unfold pickColor. rewrite H. reflexivity. Qed.


Lemma pickColors_extends keys c : COLOR_MAP c ⊆ COLOR_MAP (pickColors keys c).2.
Proof.
  revert c. induction keys as [|key keys IH]; intros c; simpl; [reflexivity|].
  pose proof (pickColor_extends key c) as H1.
  destruct (pickColor key c) as [color c1]. simpl in H1.
  pose proof (IH c1) as H2. destruct (pickColors keys c1) as [colors c2].
  simpl in *. etransitivity; eassumption.
Qed.

End ColorFacts.

(** C9.  [pickColor] is memoized: a call with a key, repeated after any
    further calls, returns the colour of the first call and changes
    nothing.  From the empty map, every call returns the palette colour
    whose index is the position of its key among the distinct keys in the
    order of their first calls, and [nextColorIndex] counts the distinct
    keys.  The palettes have 24 entries: the first 24 distinct keys get a
    defined [bg] and [fg], every further one gets [undefined] for both. *)
Theorem pickColor_memoized (keys : list string) :
  (∀ c key later,
     let first := Ui.pickColor key c in
     Ui.pickColor key (Ui.pickColors later first.2).2
     = (first.1, (Ui.pickColors later first.2).2))
  ∧ (Ui.pickColors keys Ui.initial_colors).1
    = map (λ key, Ui.palette_color (Ui.index_of key (Ui.distinct keys))) keys
  ∧ Ui.nextColorIndex (Ui.pickColors keys Ui.initial_colors).2 = length (Ui.distinct keys)
  ∧ NoDup (Ui.distinct keys)
  ∧ (∀ key, key ∈ Ui.distinct keys ↔ key ∈ keys)
  ∧ length Ui.BG_COLORS = 24%nat
  ∧ length Ui.FG_COLORS = 24%nat
  ∧ (∀ index, (index < 24)%nat →
       ∃ b f, Ui.palette_color index = Ui.mkColor (Some b) (Some f))
  ∧ (∀ index, (24 ≤ index)%nat → Ui.palette_color index = Ui.mkColor None None).
Proof.
  split; [|split; [|split; [|split; [|split; [|split; [|split; [|split]]]]]]].
  - intros c key later first.
    apply ColorFacts.pickColor_known.
    eapply lookup_weaken; [apply ColorFacts.pickColor_recorded|].
    apply ColorFacts.pickColors_extends.
  - destruct (ColorFacts.pickColors_colors_of keys [] Ui.initial_colors
                ColorFacts.colors_of_initial) as [H _].
    rewrite H. simpl. rewrite ColorFacts.filter_not_nil. reflexivity.
  - destruct (ColorFacts.pickColors_colors_of keys [] Ui.initial_colors
                ColorFacts.colors_of_initial) as [_ [H _]].
    rewrite H. simpl. rewrite ColorFacts.filter_not_nil. reflexivity.
  - apply ColorFacts.NoDup_distinct.
  - intros key. apply ColorFacts.elem_of_distinct.
  - reflexivity.
  - reflexivity.
  - intros index Hlt. unfold Ui.palette_color.
    destruct (lookup_lt_is_Some_2 Ui.BG_COLORS index ltac:(simpl; lia)) as [b ->].
    destruct (lookup_lt_is_Some_2 Ui.FG_COLORS index ltac:(simpl; lia)) as [f ->].
    eauto.
  - intros index Hge. unfold Ui.palette_color.
    rewrite !lookup_ge_None_2 by (simpl; lia). reflexivity.
Qed.

(** ** The cells and the panel of unassigned lessons *)
Module TableFacts.

Import Ui.














End TableFacts.

(** ** The loop over the lessons *)
Module PlacementFacts.

Import Ui.











End PlacementFacts.




Example convertToId_teacher : Ui.convertToId "A. Turing" = "QS4gVHVyaW5n".
Proof. reflexivity. Qed.

Example convertToId_unpadded : Ui.convertToId "Math" = "TWF0aA".
Proof. reflexivity. Qed.

(** Latin-1 names can have a ["/"] in their Base64 form, here "Zo" followed
    by the code unit 235; the id is then no plain id and the selector is
    left to jQuery's selector engine. *)
Example convertToId_not_plain :
  let name := String "Z" (String "o" (String (ascii_of_nat 235) "")) in
  Ui.convertToId name = "Wm/r"
  ∧ Ui.plain_id (Ui.teacher_cell_id "1" name) = false.
Proof. split; reflexivity. Qed.

(** [renderSchedule] runs to its end whenever the ids built for the lessons
    that have a timeslot and a room are plain. *)
Lemma renderSchedule_completes (timetable : Ui.Timetable) (p : Ui.Page) :
  Forall (λ l, Forall (λ id, Ui.plain_id id = true) (Ui.lesson_cell_ids l))
         (Ui.lessons timetable) →
  ∃ p', Ui.renderSchedule timetable p = Ui.Completed p'.
Proof.
  intros Hplain. unfold Ui.renderSchedule.
  set (p0 := Ui.with_tables (Ui.build_tables timetable) _). clearbody p0.
  assert (∃ p1, Ui.place_lessons (Ui.lessons timetable) (Ui.Completed p0)
                = Ui.Completed p1) as [p1 ->].
  { revert p0. induction Hplain as [|l ls Hl _ IH]; intros p0; [eauto|].
    unfold Ui.place_lessons. simpl.
    fold (Ui.place_lessons ls (Ui.place_lesson l p0)).
    assert (∃ p1, Ui.place_lesson l p0 = Ui.Completed p1) as [p1 ->]; [|apply IH].
    unfold Ui.place_lesson, Ui.lesson_cell_ids in *.
    destruct (Ui.pickColor (Ui.subject l) (Ui.colors p0)) as [color cs].
    destruct (Ui.timeslot l) as [ts|], (Ui.room l) as [rm|]; eauto.
    apply Forall_cons in Hl as [H1 Hl]. apply Forall_cons in Hl as [H2 Hl].
    apply Forall_cons in Hl as [H3 _].
    unfold Ui.jq_append. rewrite H1. simpl. rewrite H2. simpl. rewrite H3. eauto. }
  simpl. destruct (Ui.unassignedLessons (Ui.tables p1)); eauto.
Qed.

(** ** The solver engine *)
Module EngineFacts.

Import Engine.

Lemma find_is_Some {A} (f : A → bool) (l : list A) (x : A) :
  x ∈ l → f x = true → is_Some (find f l).
Proof.
  induction l as [|y l IH]; [inversion 1|]. simpl.
  destruct (f y) eqn:E; [eauto|].
  intros [->|Hin]%elem_of_cons Hx; [congruence | exact (IH Hin Hx)].
Qed.

Lemma illegally_pinned_spec e :
  illegally_pinned e = true
  ↔ pinned e = true ∧ allowsUnassigned e = false ∧ None ∈ variables e.
Proof.
  unfold illegally_pinned. rewrite !andb_true_iff, negb_true_iff, bool_decide_eq_true.
  rewrite Exists_exists. split.
  - intros [[? ?] (v & Hin & ->)]. auto.
  - intros (? & ? & ?). eauto.
Qed.

End EngineFacts.

(** C3.  On the engine as the specification describes it: a Solution in
    which some Entity is pinned, does not allow unassignment and has an
    unassigned Variable is rejected by [solve] with a configuration error,
    and no job is started for it. *)
Theorem solve_rejects_pinned_unassigned (s : Engine.Solution) (e : Engine.Entity) :
  e ∈ Engine.entities s →
  Engine.pinned e = true →
  Engine.allowsUnassigned e = false →
  None ∈ Engine.variables e →
  (∃ err, Engine.solve s = inl err) ∧ ∀ job, Engine.solve s ≠ inr job.
Proof.
  intros Hin Hp Ha Hv.
  assert (∃ err, Engine.validate s = Some err) as [err Herr].
  { unfold Engine.validate.
    destruct (find _ (Engine.referenced s)); [eauto|].
    destruct (Engine.first_duplicate _); [eauto|].
    destruct (EngineFacts.find_is_Some Engine.illegally_pinned _ e Hin) as [e' ->];
      [|eauto].
    apply EngineFacts.illegally_pinned_spec. auto. }
  unfold Engine.solve. rewrite Herr. split; [eauto | discriminate].
Qed.

Lemma solve_rejects_pinned_unassigned_witness :
  let shift := Engine.mkEntity 7%nat true false [Some 3%nat; None] in
  let s := Engine.mkSolution [Engine.mkEntity 1%nat false false [Some 2%nat]; shift] [1%nat] in
  (∃ err, Engine.solve s = inl err) ∧ ∀ job, Engine.solve s ≠ inr job.
Proof.
  intros shift s.
  apply (solve_rejects_pinned_unassigned s shift).
  - right. left.
  - reflexivity.
  - reflexivity.
  - right. left.
Defined.

Example solve_rejects_example :
  Engine.solve
    (Engine.mkSolution
       [Engine.mkEntity 1%nat false false [Some 2%nat];
        Engine.mkEntity 7%nat true false [Some 3%nat; None]] [1%nat])
  = inl (Engine.PinnedIllegalNull 7%nat).
Proof. reflexivity. Qed.

Example solve_starts_example :
  Engine.solve
    (Engine.mkSolution
       [Engine.mkEntity 1%nat false false [Some 2%nat];
        Engine.mkEntity 7%nat true true [Some 3%nat; None]] [1%nat])
  = inr (Engine.mkJob Engine.CONSTRUCTING
           (Engine.mkSolution
              [Engine.mkEntity 1%nat false false [Some 2%nat];
               Engine.mkEntity 7%nat true true [Some 3%nat; None]] [1%nat])).
Proof. reflexivity. Qed.

(** * Further properties *)

From Stdlib Require Import ZifyNat.

(** ** Reading back the scores the server writes *)
Module FormatFacts.

Import ScoreFormat.

Example hard_soft_example : hard_soft 0 (-15) = "0hard/-15soft".
Proof. reflexivity. Qed.

Example hard_medium_soft_example :
  hard_medium_soft (-2) 0 1203 = "-2hard/0medium/1203soft".
Proof. reflexivity. Qed.

Lemma digit_char_is_digit d : 0 ≤ d < 10 → is_digit (digit_char d) = true.
Proof.
  intros Hd. assert (d = 0 ∨ d = 1 ∨ d = 2 ∨ d = 3 ∨ d = 4 ∨ d = 5 ∨ d = 6
                     ∨ d = 7 ∨ d = 8 ∨ d = 9) as H by lia.
  repeat destruct H as [->|H]; try subst d; reflexivity.
Qed.

Lemma digit_char_value d : 0 ≤ d < 10 → digit_value (digit_char d) = d.
Proof.
  intros Hd. assert (d = 0 ∨ d = 1 ∨ d = 2 ∨ d = 3 ∨ d = 4 ∨ d = 5 ∨ d = 6
                     ∨ d = 7 ∨ d = 8 ∨ d = 9) as H by lia.
  repeat destruct H as [->|H]; try subst d; reflexivity.
Qed.

Lemma decimal_digits_digits fuel n acc :
  0 ≤ n →
  Forall (λ c, is_digit c = true) acc →
  Forall (λ c, is_digit c = true) (decimal_digits fuel n acc).
Proof.
  revert n acc. induction fuel as [|fuel IH]; intros n acc Hn Hacc; [exact Hacc|].
  simpl.
  assert (Forall (λ c, is_digit c = true) (digit_char (n mod 10) :: acc)) as Hacc'.
  { constructor; [|exact Hacc]. apply digit_char_is_digit.
    apply Z.mod_pos_bound. lia. }
  destruct (n <? 10); [exact Hacc'|].
  apply IH; [|exact Hacc']. apply Z.div_pos; lia.
Qed.

Lemma decimal_digits_fold fuel n acc :
  0 ≤ n < 10 ^ Z.of_nat fuel →
  fold_left (λ a c, 10 * a + digit_value c) (decimal_digits fuel n acc) 0
  = fold_left (λ a c, 10 * a + digit_value c) acc n.
Proof.
  revert n acc. induction fuel as [|fuel IH]; intros n acc Hn.
  - simpl in *. assert (n = 0) as -> by lia. reflexivity.
  - simpl decimal_digits. destruct (Z.ltb_spec n 10) as [Hlt|Hge].
    + rewrite Z.mod_small by lia. simpl.
      rewrite digit_char_value by lia. reflexivity.
    + rewrite IH.
      * simpl. rewrite digit_char_value by (apply Z.mod_pos_bound; lia).
        rewrite <- Z.div_mod by lia. reflexivity.
      * rewrite Nat2Z.inj_succ, Z.pow_succ_r in Hn by lia.
        split; [apply Z.div_pos; lia|].
        apply Z.div_lt_upper_bound; lia.
Qed.

Lemma decimal_digits_nonempty fuel n acc :
  decimal_digits (S fuel) n acc ≠ [].
Proof.
  revert n acc. induction fuel as [|fuel IH]; intros n acc; simpl.
  - destruct (n <? 10); discriminate.
  - destruct (n <? 10); [discriminate|]. apply (IH (n / 10)).
Qed.

Lemma decimal_spec n :
  0 ≤ n →
  decimal n ≠ [] ∧ Forall (λ c, is_digit c = true) (decimal n)
  ∧ digits_value (decimal n) = n.
Proof.
  intros Hn. unfold decimal. split; [apply decimal_digits_nonempty|].
  split; [apply decimal_digits_digits; [exact Hn | constructor]|].
  unfold digits_value. rewrite decimal_digits_fold; [reflexivity|].
  split; [exact Hn|].
  rewrite Nat2Z.inj_succ, Z2Nat.id by apply Z.log2_nonneg.
  destruct (Z.eq_dec n 0) as [->|Hne]; [reflexivity|].
  pose proof (Z.log2_spec n ltac:(lia)) as [_ Hlt].
  eapply Z.lt_le_trans; [exact Hlt|].
  apply Z.pow_le_mono_l. pose proof (Z.log2_nonneg n). lia.
Qed.

(** A printed integer is a numeral, and [parseInt] reads it back. *)
Lemma parseInt_signed_decimal z :
  Z.abs z ≤ two53 → parseInt (signed_decimal z) = Fin z.
Proof.
  intros Hz. destruct (decimal_spec (Z.abs z) ltac:(lia)) as (Hne & Hds & Hval).
  unfold signed_decimal. rewrite ScoreFacts.parseInt_numeral by assumption.
  unfold numeral_value. rewrite Hval.
  destruct (Z.ltb_spec z 0);
    [replace (- Z.abs z) with z by lia | replace (Z.abs z) with z at 1 by lia];
    apply ScoreFacts.of_Z_safe; exact Hz.
Qed.

Lemma matchAll_signed_decimal pre z l post :
  (∀ c, last pre = Some c → is_digit c = false ∧ c ≠ "-"%char) →
  matchAll (pre ++ signed_decimal z ++ level_name l ++ post)
  = matchAll pre ++ (signed_decimal z, l) :: matchAll post.
Proof.
  intros Hpre. destruct (decimal_spec (Z.abs z) ltac:(lia)) as (Hne & Hds & _).
  unfold signed_decimal. rewrite <- !app_assoc.
  apply ScoreFacts.matchAll_numeral; [assumption..|].
  intros c Hc. destruct (Hpre c Hc) as [? ?]. split; [assumption | done].
Qed.

Lemma matchAll_signed_decimal_first z l post :
  matchAll (signed_decimal z ++ level_name l ++ post)
  = (signed_decimal z, l) :: matchAll post.
Proof. apply (matchAll_signed_decimal [] z l post). discriminate. Qed.

Lemma matchAll_slash_signed_decimal z l post :
  matchAll ("/"%char :: signed_decimal z ++ level_name l ++ post)
  = (signed_decimal z, l) :: matchAll post.
Proof.
  apply (matchAll_signed_decimal ["/"%char] z l post).
  intros c [= <-]. split; [reflexivity | discriminate].
Qed.

End FormatFacts.

(** X1.  [getScoreComponents] reads back the scores the server writes: for
    integers of magnitude at most 2^53, the three-level text
    ["<h>hard/<m>medium/<s>soft"] gives the fields [h], [m] and [s], and the
    two-level text ["<h>hard/<s>soft"] gives [h], 0 and [s]. *)
Theorem getScoreComponents_round_trip (h m s : Z) :
  Z.abs h ≤ two53 → Z.abs m ≤ two53 → Z.abs s ≤ two53 →
  getScoreComponents (ScoreFormat.hard_medium_soft h m s)
  = mkComponents (Fin h) (Fin m) (Fin s)
  ∧ getScoreComponents (ScoreFormat.hard_soft h s)
    = mkComponents (Fin h) (Fin 0) (Fin s).
Proof.
  intros Hh Hm Hs.
  unfold getScoreComponents, ScoreFormat.hard_medium_soft, ScoreFormat.hard_soft.
  rewrite !String.list_ascii_of_string_of_list_ascii.
  rewrite !ScoreFacts.getScoreComponents_chars_fold.
  rewrite <- (app_nil_r (level_name Soft)).
  rewrite !FormatFacts.matchAll_signed_decimal_first.
  rewrite !FormatFacts.matchAll_slash_signed_decimal.
  rewrite ScoreFacts.matchAll_nil. simpl. unfold store. simpl.
  rewrite !FormatFacts.parseInt_signed_decimal by assumption.
  split; reflexivity.
Qed.

Lemma getScoreComponents_round_trip_witness :
  getScoreComponents (ScoreFormat.hard_medium_soft (-2) 0 (-15))
  = mkComponents (Fin (-2)) (Fin 0) (Fin (-15))
  ∧ getScoreComponents (ScoreFormat.hard_soft (-2) (-15))
    = mkComponents (Fin (-2)) (Fin 0) (Fin (-15)).
Proof.
  apply (getScoreComponents_round_trip (-2) 0 (-15)); vm_compute; discriminate.
Defined.

(** ** The fields of [getScoreComponents] are numbers of integers *)
Module IntegerFacts.

Lemma match_at_numeral_form s g l rest :
  match_at s = Some (g, l, rest) →
  ∃ neg ds, g = minus_sign neg ++ ds ∧ ds ≠ []
            ∧ Forall (λ c, is_digit c = true) ds.
Proof.
  unfold match_at.
  destruct (take_minus s) as [sign s1] eqn:Es.
  assert (∃ neg, sign = minus_sign neg) as [neg ->].
  { destruct s as [|c t]; simpl in Es; [injection Es as <- _; by exists false|].
    destruct (decide (c = "-"%char)) as [->|_]; injection Es as <- _;
      [by exists true | by exists false]. }
  destruct (span_digits s1) as [ds s2] eqn:Ed.
  apply ScoreFacts.span_digits_split in Ed as [_ Hds].
  destruct ds as [|d ds]; [discriminate|].
  destruct (match_level s2) as [[l' r']|]; [|discriminate].
  intros [= <- <- <-]. exists neg, (d :: ds). split; [reflexivity|].
  split; [discriminate | exact Hds].
Qed.

Lemma matchAll_numeral_form s g l :
  (g, l) ∈ matchAll s →
  ∃ neg ds, g = minus_sign neg ++ ds ∧ ds ≠ []
            ∧ Forall (λ c, is_digit c = true) ds.
Proof.
  remember (length s) as n eqn:Hn. revert s Hn.
  induction (lt_wf n) as [n _ IH]. intros s ->.
  destruct s as [|c s]; [rewrite ScoreFacts.matchAll_nil; inversion 1|].
  rewrite ScoreFacts.matchAll_cons.
  destruct (match_at (c :: s)) as [[[g' l'] rest]|] eqn:E.
  - intros [[= -> ->]|Hin]%elem_of_cons.
    + exact (match_at_numeral_form _ _ _ _ E).
    + pose proof (ScoreFacts.match_at_Some _ _ _ _ E) as Hs.
      assert (length rest < length (c :: s))%nat as Hlt.
      { rewrite Hs, !length_app. pose proof (ScoreFacts.level_name_nonempty l').
        destruct (level_name l'); [done|]. simpl. lia. }
      exact (IH _ Hlt rest eq_refl Hin).
  - intros Hin. exact (IH (length s) ltac:(simpl; lia) s eq_refl Hin).
Qed.

Lemma fold_store_cases l ms c :
  component l (fold_left store ms c) = component l c
  ∨ ∃ g, (g, l) ∈ ms ∧ component l (fold_left store ms c) = parseInt g.
Proof.
  revert c. induction ms as [|[g l'] ms IH]; intros c; [left; reflexivity|].
  simpl. destruct (IH (store c (g, l'))) as [H|(g' & Hin & H)].
  - rewrite H. unfold store. simpl. destruct (decide (l = l')) as [->|Hne].
    + right. exists g. split; [left|]. apply ScoreFacts.component_set_same.
    + left. apply ScoreFacts.component_set_other. exact Hne.
  - right. exists g'. split; [right; exact Hin | exact H].
Qed.

Lemma of_Z_not_NaN z : of_Z z ≠ NaN.
Proof.
  unfold of_Z. destruct (overflow_bound <=? round53 (Z.abs z));
    [destruct (z <? 0)|]; discriminate.
Qed.

End IntegerFacts.

(** X2.  Every field that [getScoreComponents] returns, for every string,
    is the Number of an integer (the initial 0 or what [parseInt] made of a
    matched numeral); it is never [NaN]. *)
Theorem getScoreComponents_never_NaN (score : string) (l : Level) :
  (∃ z, component l (getScoreComponents score) = of_Z z)
  ∧ component l (getScoreComponents score) ≠ NaN.
Proof.
  assert (∃ z, component l (getScoreComponents score) = of_Z z) as [z Hz].
  { unfold getScoreComponents. rewrite ScoreFacts.getScoreComponents_chars_fold.
    destruct (IntegerFacts.fold_store_cases l
                (matchAll (String.list_ascii_of_string score)) zero_components)
      as [->|(g & Hin & ->)].
    - exists 0. destruct l; reflexivity.
    - destruct (IntegerFacts.matchAll_numeral_form _ _ _ Hin)
        as (neg & ds & -> & Hne & Hds).
      rewrite ScoreFacts.parseInt_numeral by assumption. eauto. }
  split; [eauto|]. rewrite Hz. apply IntegerFacts.of_Z_not_NaN.
Qed.

(** ** The comparator on constraints that only score at the soft level *)
Module ComparatorFacts.

Lemma soft_before (a b : Analysis.ConstraintAnalysis) (x y : Z) :
  getScoreComponents (Analysis.score a) = mkComponents (Fin 0) (Fin 0) (Fin x) →
  getScoreComponents (Analysis.score b) = mkComponents (Fin 0) (Fin 0) (Fin y) →
  Z.abs x ≤ two53 → Z.abs y ≤ two53 →
  Analysis.sorts_before a b = true
  ↔ (x < 0 ∧ 0 < y) ∨ (¬ (0 < x ∧ y < 0) ∧ Z.abs y < Z.abs x).
Proof.
  intros Ha Hb Hx Hy.
  rewrite (compareConstraints_soft_level a b x y Ha Hb Hx Hy).
  unfold ScoreOrder.score_precedes, ScoreOrder.level_tie, ScoreOrder.level_before.
  simpl.
  destruct (Z.ltb_spec x 0), (Z.ltb_spec 0 y), (Z.ltb_spec 0 x), (Z.ltb_spec y 0),
    (Z.ltb_spec (Z.abs y) (Z.abs x)); simpl; split; intros Hgoal;
    try discriminate; try reflexivity; try lia.
Qed.

End ComparatorFacts.

(** X3.  On constraints whose scores have hard and medium 0 (and a soft
    level within 2^53) the comparator of [analyze] is consistent: no
    constraint comes before itself, two constraints never come before each
    other, coming before is transitive, and two constraints of which
    neither comes before the other have the same soft level. *)
Theorem compareConstraints_soft_consistent
    (a b c : Analysis.ConstraintAnalysis) (x y z : Z) :
  getScoreComponents (Analysis.score a) = mkComponents (Fin 0) (Fin 0) (Fin x) →
  getScoreComponents (Analysis.score b) = mkComponents (Fin 0) (Fin 0) (Fin y) →
  getScoreComponents (Analysis.score c) = mkComponents (Fin 0) (Fin 0) (Fin z) →
  Z.abs x ≤ two53 → Z.abs y ≤ two53 → Z.abs z ≤ two53 →
  Analysis.sorts_before a a = false
  ∧ (Analysis.sorts_before a b = true → Analysis.sorts_before b a = false)
  ∧ (Analysis.sorts_before a b = true → Analysis.sorts_before b c = true →
     Analysis.sorts_before a c = true)
  ∧ (Analysis.sorts_before a b = false → Analysis.sorts_before b a = false →
     x = y).
Proof.
  intros Ha Hb Hc Hx Hy Hz.
  pose proof (ComparatorFacts.soft_before a a x x Ha Ha Hx Hx) as Haa.
  pose proof (ComparatorFacts.soft_before a b x y Ha Hb Hx Hy) as Hab.
  pose proof (ComparatorFacts.soft_before b a y x Hb Ha Hy Hx) as Hba.
  pose proof (ComparatorFacts.soft_before b c y z Hb Hc Hy Hz) as Hbc.
  pose proof (ComparatorFacts.soft_before a c x z Ha Hc Hx Hz) as Hac.
  split; [|split; [|split]].
  - apply not_true_is_false. rewrite Haa. lia.
  - intros H. apply not_true_is_false. rewrite Hba. apply Hab in H. lia.
  - intros H1 H2. apply Hac. apply Hab in H1. apply Hbc in H2. lia.
  - intros H1 H2. apply not_true_iff_false in H1, H2.
    rewrite Hab in H1. rewrite Hba in H2. lia.
Qed.

Lemma compareConstraints_soft_consistent_witness :
  let a := Analysis.mkConstraintAnalysis "a" "0hard/-1soft" "0hard/-5soft" [] in
  let b := Analysis.mkConstraintAnalysis "b" "0hard/-1soft" "0hard/-2soft" [] in
  let c := Analysis.mkConstraintAnalysis "c" "0hard/1soft" "0hard/7soft" [] in
  Analysis.sorts_before a a = false
  ∧ (Analysis.sorts_before a b = true → Analysis.sorts_before b a = false)
  ∧ (Analysis.sorts_before a b = true → Analysis.sorts_before b c = true →
     Analysis.sorts_before a c = true)
  ∧ (Analysis.sorts_before a b = false → Analysis.sorts_before b a = false →
     -5 = -2).
Proof.
  intros a b c.
  apply (compareConstraints_soft_consistent a b c (-5) (-2) 7);
    try reflexivity; vm_compute; discriminate.
Defined.

(** ** The rows of the analysis table *)
Module RowFacts.

Lemma num_ne0_spec x : num_ne0 x = true ↔ x ≠ Fin 0.
Proof.
  destruct x as [z| | |]; simpl; try (split; [discriminate | reflexivity]).
  rewrite negb_true_iff, Z.eqb_neq. split; [congruence|].
  intros H ->. apply H. reflexivity.
Qed.

Lemma num_ne0_false x : num_ne0 x = false ↔ x = Fin 0.
Proof.
  rewrite <- not_true_iff_false, num_ne0_spec.
  destruct (decide (x = Fin 0)); tauto.
Qed.


End RowFacts.


(** X5.  The type that [analyze] derives for a constraint is the first
    level (hard, then medium, then soft) at which its weight string is not
    0; the weight it shows is 0 only when the weight string has no level
    other than 0, and the score it shows is 0 only when the score string has
    none. *)
Theorem derive_first_nonzero (e : Analysis.ConstraintAnalysis) :
  let w := getScoreComponents (Analysis.weight e) in
  let s := getScoreComponents (Analysis.score e) in
  (Ui.a_type (Ui.derive e) = Hard ↔ hard w ≠ Fin 0)
  ∧ (Ui.a_type (Ui.derive e) = Medium ↔ hard w = Fin 0 ∧ medium w ≠ Fin 0)
  ∧ (Ui.a_type (Ui.derive e) = Soft ↔ hard w = Fin 0 ∧ medium w = Fin 0)
  ∧ Ui.a_weight (Ui.derive e) = component (Ui.a_type (Ui.derive e)) w
  ∧ (Ui.a_weight (Ui.derive e) = Fin 0 ↔ w = zero_components)
  ∧ (Ui.a_implicitScore (Ui.derive e) = Fin 0 ↔ s = zero_components).
Proof.
  intros w s. unfold Ui.derive. fold w s. simpl.
  pose proof (RowFacts.num_ne0_spec (hard w)) as Hh.
  pose proof (RowFacts.num_ne0_spec (medium w)) as Hm.
  pose proof (RowFacts.num_ne0_spec (hard s)) as Hsh.
  pose proof (RowFacts.num_ne0_spec (medium s)) as Hsm.
  assert (∀ c : Components,
            c = zero_components ↔ hard c = Fin 0 ∧ medium c = Fin 0 ∧ soft c = Fin 0)
    as Hzero.
  { intros [ch cm cs]. unfold zero_components. simpl. split.
    - intros [= -> -> ->]. auto.
    - intros (-> & -> & ->). reflexivity. }
  rewrite !Hzero.
  destruct (num_ne0 (hard w)) eqn:Eh; [|destruct (num_ne0 (medium w)) eqn:Em];
    (destruct (num_ne0 (hard s)) eqn:Esh; [|destruct (num_ne0 (medium s)) eqn:Esm]);
    try apply RowFacts.num_ne0_false in Eh; try apply RowFacts.num_ne0_false in Em;
    try apply RowFacts.num_ne0_false in Esh; try apply RowFacts.num_ne0_false in Esm;
    simpl; intuition (try discriminate; try congruence).
Qed.

(** ** The solving controls *)
Module RefreshFacts.

Import Ui.

Lemma refreshSolvingButtons_twice solving c :
  refreshSolvingButtons solving (refreshSolvingButtons solving c)
  = refreshSolvingButtons solving c.
Proof.
  unfold refreshSolvingButtons. destruct solving; simpl;
    destruct (autoRefreshIntervalId c) as [h|] eqn:E; simpl; rewrite ?E;
    reflexivity.
Qed.

Lemma refreshSolvingButtons_buttons solving c :
  solveButtonShown (refreshSolvingButtons solving c) = negb solving
  ∧ stopSolvingButtonShown (refreshSolvingButtons solving c) = solving.
Proof.
  unfold refreshSolvingButtons. destruct solving; simpl;
    destruct (autoRefreshIntervalId c); split; reflexivity.
Qed.

End RefreshFacts.

(** X6.  [refreshSolvingButtons] is idempotent, whatever the state of the
    controls: a second call with the same argument changes nothing, so the
    first call alone starts or clears the timer.  After a call the solve
    button is shown exactly when the argument is false and the stop button
    exactly when it is true. *)
Theorem refreshSolvingButtons_idempotent (solving : bool) (c : Ui.Controls) :
  Ui.refreshSolvingButtons solving (Ui.refreshSolvingButtons solving c)
  = Ui.refreshSolvingButtons solving c
  ∧ Ui.solveButtonShown (Ui.refreshSolvingButtons solving c) = negb solving
  ∧ Ui.stopSolvingButtonShown (Ui.refreshSolvingButtons solving c) = solving.
Proof.
  split; [apply RefreshFacts.refreshSolvingButtons_twice|].
  apply RefreshFacts.refreshSolvingButtons_buttons.
Qed.

(** ** Colours of distinct keys *)
Module PaletteFacts.

Import Ui.

Lemma NoDup_BG_COLORS : NoDup BG_COLORS.
Proof. apply (bool_decide_unpack _). vm_compute. exact I. Qed.

Lemma index_of_lookup key keys :
  key ∈ keys → keys !! index_of key keys = Some key.
Proof.
  induction keys as [|k keys IH]; [inversion 1|]. simpl.
  destruct (decide (k = key)) as [->|Hne]; [reflexivity|].
  intros [->|Hin]%elem_of_cons; [done|]. simpl. exact (IH Hin).
Qed.

Lemma index_of_lt key keys :
  key ∈ keys → (index_of key keys < length keys)%nat.
Proof.
  intros Hin. apply lookup_lt_is_Some. rewrite index_of_lookup by exact Hin.
  eexists. reflexivity.
Qed.

Lemma index_of_inj k1 k2 keys :
  k1 ∈ keys → k2 ∈ keys → index_of k1 keys = index_of k2 keys → k1 = k2.
Proof.
  intros H1 H2 Heq. apply index_of_lookup in H1, H2.
  rewrite Heq in H1. congruence.
Qed.

Lemma palette_bg_inj a b :
  (a < 24)%nat → bg (palette_color a) = bg (palette_color b) → a = b.
Proof.
  intros Ha Heq. simpl in Heq.
  destruct (lookup_lt_is_Some_2 BG_COLORS a Ha) as [x Hx].
  rewrite Hx in Heq. symmetry in Heq.
  exact (NoDup_lookup _ _ _ _ NoDup_BG_COLORS Hx Heq).
Qed.

End PaletteFacts.

(** X7.  As long as a page has shown at most 24 distinct keys, [pickColor]
    gives different keys different colours: in any sequence of calls from
    the empty map with at most 24 distinct keys, two calls return the same
    background colour exactly when their keys are the same. *)
Theorem pickColor_distinct_colors (keys : list string) (i j : nat) (ki kj : string) :
  (length (Ui.distinct keys) ≤ 24)%nat →
  keys !! i = Some ki → keys !! j = Some kj →
  ∃ ci cj,
    (Ui.pickColors keys Ui.initial_colors).1 !! i = Some ci
    ∧ (Ui.pickColors keys Ui.initial_colors).1 !! j = Some cj
    ∧ (Ui.bg ci = Ui.bg cj ↔ ki = kj)
    ∧ (ci = cj ↔ ki = kj).
Proof.
  intros Hlen Hi Hj.
  destruct (ColorFacts.pickColors_colors_of keys [] Ui.initial_colors
              ColorFacts.colors_of_initial) as [H _].
  simpl in H. rewrite ColorFacts.filter_not_nil in H. rewrite H.
  rewrite !list_lookup_fmap, Hi, Hj. simpl.
  eexists _, _. split; [reflexivity|]. split; [reflexivity|].
  assert (ki ∈ Ui.distinct keys) as Hki
    by (apply ColorFacts.elem_of_distinct; eapply list_elem_of_lookup_2; exact Hi).
  assert (kj ∈ Ui.distinct keys) as Hkj
    by (apply ColorFacts.elem_of_distinct; eapply list_elem_of_lookup_2; exact Hj).
  assert (Ui.bg (Ui.palette_color (Ui.index_of ki (Ui.distinct keys)))
          = Ui.bg (Ui.palette_color (Ui.index_of kj (Ui.distinct keys)))
          → ki = kj) as Hinj.
  { intros Heq. apply PaletteFacts.palette_bg_inj in Heq.
    - exact (PaletteFacts.index_of_inj _ _ _ Hki Hkj Heq).
    - pose proof (PaletteFacts.index_of_lt _ _ Hki). lia. }
  split; (split; [|intros ->; reflexivity]).
  - exact Hinj.
  - intros Heq. apply Hinj. rewrite Heq. reflexivity.
Qed.

Lemma pickColor_distinct_colors_witness :
  ∃ ci cj,
    (Ui.pickColors ["Math"; "Physics"; "Math"] Ui.initial_colors).1 !! 0%nat = Some ci
    ∧ (Ui.pickColors ["Math"; "Physics"; "Math"] Ui.initial_colors).1 !! 1%nat = Some cj
    ∧ (Ui.bg ci = Ui.bg cj ↔ "Math" = "Physics")
    ∧ (ci = cj ↔ "Math" = "Physics").
Proof.
  apply (pickColor_distinct_colors ["Math"; "Physics"; "Math"] 0 1 "Math" "Physics").
  - vm_compute. lia.
  - reflexivity.
  - reflexivity.
Defined.

(** ** The preset colours of conference-scheduling *)
Module ConferenceFacts.

Import Ui Conference.

Lemma colors_over_reset c : colors_over [] (resetColorMap c).
Proof.
  split; [reflexivity|]. intros key. cbn [resetColorMap COLOR_MAP].
  destruct (presets !! key); [reflexivity|].
  rewrite decide_False by apply not_elem_of_nil. reflexivity.
Qed.

Lemma pickColor_preset key seen c color :
  colors_over seen c → presets !! key = Some color → pickColor key c = (color, c).
Proof.
  intros [_ Hmap] Hp. unfold pickColor. rewrite Hmap, Hp. reflexivity.
Qed.

Lemma pickColor_over_seen key seen c :
  colors_over seen c → presets !! key = None → key ∈ seen →
  pickColor key c = (palette_color (index_of key seen), c).
Proof.
  intros [_ Hmap] Hp Hin. unfold pickColor. rewrite Hmap, Hp.
  rewrite decide_True by exact Hin. reflexivity.
Qed.

Lemma pickColor_over_new key seen c :
  colors_over seen c → presets !! key = None → key ∉ seen →
  (pickColor key c).1 = palette_color (length seen)
  ∧ colors_over (seen ++ [key]) (pickColor key c).2.
Proof.
  intros [Hnext Hmap] Hp Hnot. unfold pickColor. rewrite Hmap, Hp.
  rewrite decide_False by exact Hnot. cbn [fst snd]. rewrite Hnext.
  split; [reflexivity|]. split.
  - cbn [nextColorIndex]. rewrite length_app. simpl. lia.
  - intros k. cbn [COLOR_MAP]. destruct (decide (k = key)) as [->|Hne].
    + rewrite lookup_insert_eq, Hp.
      rewrite decide_True by (apply elem_of_app; right; left).
      rewrite ColorFacts.index_of_app_r by exact Hnot. reflexivity.
    + rewrite lookup_insert_ne by congruence. rewrite Hmap.
      destruct (presets !! k); [reflexivity|].
      destruct (decide (k ∈ seen)) as [Hin|Hout].
      * rewrite decide_True by (apply elem_of_app; left; exact Hin).
        rewrite ColorFacts.index_of_app_l by exact Hin. reflexivity.
      * rewrite decide_False; [reflexivity|].
        intros [?|Hk]%elem_of_app; [done|].
        apply list_elem_of_singleton in Hk. done.
Qed.

Lemma new_keys_preset key keys color :
  presets !! key = Some color → new_keys (key :: keys) = new_keys keys.
Proof.
  intros Hp. unfold new_keys. rewrite filter_cons_False; [reflexivity|].
  rewrite Hp. discriminate.
Qed.

Lemma new_keys_new key keys :
  presets !! key = None →
  new_keys (key :: keys) = key :: filter (λ y, y ≠ key) (new_keys keys).
Proof.
  intros Hp. unfold new_keys. rewrite filter_cons_True by exact Hp. reflexivity.
Qed.

(** A sequence of calls from colours that hold the presets and [seen]. *)
Lemma pickColors_over keys seen c :
  colors_over seen c →
  let all := seen ++ filter (λ y, y ∉ seen) (new_keys keys) in
  (pickColors keys c).1
  = map (λ key, match presets !! key with
                | Some color => color
                | None => palette_color (index_of key all)
                end) keys
  ∧ colors_over all (pickColors keys c).2.
Proof.
  revert seen c. induction keys as [|key keys IH]; intros seen c Hc.
  - cbn. rewrite app_nil_r. split; [reflexivity | exact Hc].
  - cbn [pickColors map]. destruct (presets !! key) as [color|] eqn:Hp.
    + rewrite (pickColor_preset key seen c color Hc Hp).
      rewrite (new_keys_preset key keys color Hp).
      specialize (IH seen c Hc). cbn zeta in IH.
      destruct (pickColors keys c) as [colors c'] eqn:E. cbn [fst snd] in *.
      destruct IH as [-> Hc']. split; [reflexivity | exact Hc'].
    + rewrite (new_keys_new key keys Hp).
      destruct (decide (key ∈ seen)) as [Hin|Hnot].
      * rewrite (pickColor_over_seen key seen c Hc Hp Hin).
        specialize (IH seen c Hc). cbn zeta in IH.
        destruct (pickColors keys c) as [colors c'] eqn:E. cbn [fst snd] in *.
        rewrite (filter_cons_False (λ y, y ∉ seen)) by (intros H; apply H; exact Hin).
        rewrite ColorFacts.filter_not_seen_known by exact Hin.
        destruct IH as [-> Hc']. split; [|exact Hc'].
        rewrite ColorFacts.index_of_app_l by exact Hin. reflexivity.
      * destruct (pickColor_over_new key seen c Hc Hp Hnot) as [Hcol Hc1].
        destruct (pickColor key c) as [color c1] eqn:E1. cbn [fst snd] in Hcol, Hc1.
        specialize (IH (seen ++ [key]) c1 Hc1). cbn zeta in IH.
        destruct (pickColors keys c1) as [colors c'] eqn:E. cbn [fst snd] in *.
        rewrite (filter_cons_True (λ y, y ∉ seen)) by exact Hnot.
        rewrite ColorFacts.filter_not_seen_new, <- app_assoc in IH.
        cbn [app] in IH.
        destruct IH as [-> Hc']. split; [|exact Hc'].
        rewrite ColorFacts.index_of_app_r by exact Hnot. rewrite Hcol. reflexivity.
Qed.

Lemma presets_keys key :
  is_Some (presets !! key) ↔ key ∈ ["Blue"; "Green"; "Orange"].
Proof.
  unfold presets. rewrite !lookup_insert_is_Some, lookup_empty, !elem_of_cons.
  rewrite elem_of_nil. split.
  - intros [<-|[_ [<-|[_ [<-|[_ H]]]]]]; auto. destruct H as [? H]. discriminate.
  - intros [->|[->|[->|[]]]].
    + right. split; [discriminate|]. right. split; [discriminate|]. left. reflexivity.
    + right. split; [discriminate|]. left. reflexivity.
    + left. reflexivity.
Qed.

End ConferenceFacts.

(** X8.  Conference-scheduling: after [resetColorMap], whatever the colours
    were, a sequence of [pickColor] calls returns for "Blue", "Green" and
    "Orange" their preset colours, without using up an index, and for every
    other key the palette colour at its position among the distinct other
    keys.  The presets are the palette colours at 1, 0 and 2, so the first
    three other keys are drawn in the colours of "Green", "Blue" and
    "Orange". *)
Theorem resetColorMap_presets (keys : list string) (c : Ui.Colors) :
  let result := Ui.pickColors keys (Conference.resetColorMap c) in
  result.1
  = map (λ key, match Conference.presets !! key with
                | Some color => color
                | None => Ui.palette_color (Ui.index_of key (Conference.new_keys keys))
                end) keys
  ∧ Ui.nextColorIndex result.2 = length (Conference.new_keys keys)
  ∧ (∀ key, is_Some (Conference.presets !! key) ↔ key ∈ ["Blue"; "Green"; "Orange"])
  ∧ (∀ key, key ∈ Conference.new_keys keys
            ↔ key ∈ keys ∧ key ∉ ["Blue"; "Green"; "Orange"])
  ∧ Conference.presets !! "Green" = Some (Ui.palette_color 0)
  ∧ Conference.presets !! "Blue" = Some (Ui.palette_color 1)
  ∧ Conference.presets !! "Orange" = Some (Ui.palette_color 2).
Proof.
  intros result.
  destruct (ConferenceFacts.pickColors_over keys [] (Conference.resetColorMap c)
              (ConferenceFacts.colors_over_reset c)) as [H1 [H2 _]].
  cbn [app] in H1, H2. rewrite ColorFacts.filter_not_nil in H1, H2.
  split; [exact H1|]. split; [exact H2|].
  split; [exact ConferenceFacts.presets_keys|].
  split; [|split; [|split]]; try reflexivity.
  intros key. unfold Conference.new_keys.
  rewrite ColorFacts.elem_of_distinct, list_elem_of_filter.
  rewrite <- ConferenceFacts.presets_keys, <- eq_None_not_Some. tauto.
Qed.

(** ** Rendering the same timetable again *)
Module RerenderFacts.

Import Ui Rendering.

Lemma place_lessons_cons l ls o :
  place_lessons (l :: ls) o = place_lessons ls (and_then o (place_lesson l)).
Proof. reflexivity. Qed.

(** The loop over the lessons writes the tables and the colours only. *)
Lemma place_lesson_frame l p :
  ∃ t c, page_of (place_lesson l p) = with_tables t (with_colors c p)
         ∧ c = (pickColor (subject l) (colors p)).2.
Proof.
  unfold place_lesson. destruct (pickColor (subject l) (colors p)) as [color cs].
  destruct (timeslot l) as [ts|], (room l) as [rm|];
    try (eexists _, _; split; reflexivity).
  unfold jq_append.
  destruct (plain_id (room_cell_id ts rm));
    [|eexists (tables p), _; split; reflexivity]. simpl.
  destruct (plain_id (teacher_cell_id ts (teacher l)));
    [|eexists _, _; split; reflexivity]. simpl.
  destruct (plain_id (studentGroup_cell_id ts (studentGroup l)));
    eexists _, _; split; reflexivity.
Qed.

Lemma page_eta (p : Page) : with_tables (tables p) (with_colors (colors p) p) = p.
Proof. destruct p. reflexivity. Qed.

Lemma place_lessons_frame ls o :
  ∃ t c, page_of (place_lessons ls o) = with_tables t (with_colors c (page_of o))
         ∧ COLOR_MAP (colors (page_of o)) ⊆ COLOR_MAP c.
Proof.
  revert o. induction ls as [|l ls IH]; intros o.
  - exists (tables (page_of o)), (colors (page_of o)).
    split; [symmetry; apply page_eta | reflexivity].
  - rewrite place_lessons_cons.
    destruct (IH (and_then o (place_lesson l))) as (t & c & Heq & Hsub).
    destruct o as [p|p]; simpl in *.
    + destruct (place_lesson_frame l p) as (t1 & c1 & H1 & Hc1).
      rewrite H1 in Heq, Hsub. exists t, c. split; [exact Heq|].
      etransitivity; [|exact Hsub]. simpl. subst c1.
      apply ColorFacts.pickColor_extends.
    + exists t, c. split; assumption.
Qed.

Lemma place_lesson_recolor l p cF :
  COLOR_MAP (colors (page_of (place_lesson l p))) ⊆ COLOR_MAP cF →
  place_lesson l (with_colors cF p) = recolor cF (place_lesson l p).
Proof.
  intros Hsub.
  destruct (place_lesson_frame l p) as (t1 & c1 & H1 & Hc1).
  rewrite H1 in Hsub. simpl in Hsub. subst c1.
  pose proof (lookup_weaken _ _ _ _ (ColorFacts.pickColor_recorded (subject l) (colors p))
                Hsub) as Hknown.
  unfold place_lesson. cbn [colors with_colors].
  rewrite (ColorFacts.pickColor_known _ _ _ Hknown).
  destruct (pickColor (subject l) (colors p)) as [color cs]. cbn [fst].
  destruct (timeslot l) as [ts|], (room l) as [rm|]; try reflexivity.
  unfold jq_append.
  destruct (plain_id (room_cell_id ts rm)); [|reflexivity]. simpl.
  destruct (plain_id (teacher_cell_id ts (teacher l))); [|reflexivity]. simpl.
  destruct (plain_id (studentGroup_cell_id ts (studentGroup l))); reflexivity.
Qed.

Lemma place_lessons_recolor ls o cF :
  COLOR_MAP (colors (page_of (place_lessons ls o))) ⊆ COLOR_MAP cF →
  place_lessons ls (recolor cF o) = recolor cF (place_lessons ls o).
Proof.
  revert o. induction ls as [|l ls IH]; intros o Hsub; [reflexivity|].
  rewrite !place_lessons_cons in *.
  rewrite <- (IH _ Hsub). f_equal.
  destruct o as [p|p]; [|reflexivity]. cbn [and_then recolor] in *.
  apply place_lesson_recolor.
  destruct (place_lessons_frame ls (place_lesson l p)) as (t & c & Heq & Hc).
  rewrite Heq in Hsub. simpl in Hsub. etransitivity; eassumption.
Qed.

Lemma recolor_same o : recolor (colors (page_of o)) o = o.
Proof. destruct o as [[]|[]]; reflexivity. Qed.

(** What [renderSchedule] leaves: the page before with the controls and
    the score text that its first statements set, and with other tables and
    colours. *)
Lemma renderSchedule_frame timetable p :
  ∃ t,
    page_of (renderSchedule timetable p)
    = with_tables t
        (with_colors (colors (page_of (renderSchedule timetable p)))
           (with_scoreText ("Score: " +:+ default "?" (score timetable))
              (with_controls
                 (refreshSolvingButtons (isSolving (solverStatus timetable))) p))).
Proof.
  unfold renderSchedule.
  match goal with
  | |- context [place_lessons ?ls ?o] =>
      destruct (place_lessons_frame ls o) as (t & c & Heq & _);
      destruct (place_lessons ls o) as [p1|p1]
  end; simpl in Heq; subst p1; simpl.
  - match goal with
    | |- context [match ?u with [] => _ | _ :: _ => _ end] => destruct u
    end; simpl; eexists; reflexivity.
  - eexists; reflexivity.
Qed.

Lemma renderSchedule_colors timetable p :
  colors (page_of (renderSchedule timetable p))
  = colors (page_of (place_lessons (lessons timetable)
              (Completed
                 (with_tables (build_tables timetable)
                    (with_scoreText ("Score: " +:+ default "?" (score timetable))
                       (with_controls
                          (refreshSolvingButtons (isSolving (solverStatus timetable)))
                          p)))))).
Proof.
  unfold renderSchedule.
  match goal with
  | |- context [place_lessons ?ls ?o] => destruct (place_lessons ls o) as [p1|p1]
  end; simpl; [|reflexivity].
  destruct (unassignedLessons (tables p1)); reflexivity.
Qed.

Lemma renderSchedule_twice timetable p :
  renderSchedule timetable (page_of (renderSchedule timetable p))
  = renderSchedule timetable p.
Proof.
  destruct (renderSchedule_frame timetable p) as (t & Hframe).
  pose proof (renderSchedule_colors timetable p) as Hcol.
  set (p2 := page_of (renderSchedule timetable p)) in *.
  unfold renderSchedule at 1.
  set (p0 := with_tables (build_tables timetable)
               (with_scoreText ("Score: " +:+ default "?" (score timetable))
                  (with_controls
                     (refreshSolvingButtons (isSolving (solverStatus timetable))) p)))
    in *.
  assert (with_tables (build_tables timetable)
            (with_scoreText ("Score: " +:+ default "?" (score timetable))
               (with_controls
                  (refreshSolvingButtons (isSolving (solverStatus timetable))) p2))
          = with_colors (colors p2) p0) as ->.
  { rewrite Hframe at 1. unfold p0, with_tables, with_scoreText, with_controls,
      with_colors. simpl. rewrite RefreshFacts.refreshSolvingButtons_twice. reflexivity. }
  change (Completed (with_colors (colors p2) p0))
    with (recolor (colors p2) (Completed p0)).
  rewrite place_lessons_recolor by (rewrite Hcol; reflexivity).
  rewrite Hcol, recolor_same. reflexivity.
Qed.

End RerenderFacts.

(** X9.  Rendering the same timetable a second time changes nothing: the
    page after [renderSchedule] is a fixed point of [renderSchedule] with
    that timetable, whatever the page before, also when the rendering is
    left early.  The tables are rebuilt from the payload, every subject gets
    the colour it had, no colour index is used up, and the timer is neither
    started nor cleared again. *)
Theorem renderSchedule_idempotent (timetable : Ui.Timetable) (p : Ui.Page) :
  Ui.renderSchedule timetable (Ui.page_of (Ui.renderSchedule timetable p))
  = Ui.renderSchedule timetable p.
Proof. apply RerenderFacts.renderSchedule_twice. Qed.

(** ** Colours over the life of the page *)
Module StableFacts.

Import Ui.

Lemma place_lessons_recorded ls p p' :
  place_lessons ls (Completed p) = Completed p' →
  COLOR_MAP (colors p) ⊆ COLOR_MAP (colors p')
  ∧ ∀ l, l ∈ ls → is_Some (COLOR_MAP (colors p') !! subject l).
Proof.
  revert p. induction ls as [|l ls IH]; intros p H.
  - injection H as <-. split; [reflexivity|]. intros l Hl. inversion Hl.
  - apply RenderFacts.place_lessons_step in H as (p1 & H1 & H).
    destruct (IH p1 H) as [Hsub Hall].
    destruct (RerenderFacts.place_lesson_frame l p) as (t & c & Hp1 & Hc).
    rewrite H1 in Hp1. simpl in Hp1. subst p1 c. simpl in Hsub.
    split.
    + etransitivity; [apply ColorFacts.pickColor_extends | exact Hsub].
    + intros l' [->|Hl']%elem_of_cons; [|exact (Hall l' Hl')].
      eexists. eapply lookup_weaken; [|exact Hsub].
      apply ColorFacts.pickColor_recorded.
Qed.

Lemma renderSchedule_recorded timetable p p' :
  renderSchedule timetable p = Completed p' →
  ∀ l, l ∈ lessons timetable → is_Some (COLOR_MAP (colors p') !! subject l).
Proof.
  unfold renderSchedule.
  match goal with
  | |- context [place_lessons ?ls (Completed ?p0)] =>
      destruct (place_lessons ls (Completed p0)) as [p1|p1] eqn:E
  end; simpl; [|discriminate].
  apply place_lessons_recorded in E as [_ Hall].
  destruct (unassignedLessons (tables p1)); intros [= <-]; exact Hall.
Qed.

Lemma renderSchedule_extends timetable p :
  COLOR_MAP (colors p) ⊆ COLOR_MAP (colors (page_of (renderSchedule timetable p))).
Proof.
  rewrite RerenderFacts.renderSchedule_colors.
  match goal with
  | |- context [place_lessons ?ls ?o] =>
      destruct (RerenderFacts.place_lessons_frame ls o) as (t & c & Heq & Hsub)
  end.
  rewrite Heq. exact Hsub.
Qed.

Lemma renders_extend later p :
  COLOR_MAP (colors p)
  ⊆ COLOR_MAP (colors (fold_left (λ p t, page_of (renderSchedule t p)) later p)).
Proof.
  revert p. induction later as [|t later IH]; intros p; [reflexivity|].
  simpl. etransitivity; [apply renderSchedule_extends | apply IH].
Qed.

End StableFacts.

(** X10.  School-timetabling never resets its colours: once a rendering
    that ran to its end has drawn a lesson, its subject keeps that colour
    through every later rendering, whatever timetables these show, so the
    card built for the lesson is the same after them.  (Conference-scheduling
    calls [resetColorMap] at every rendering instead.) *)
Theorem renderSchedule_keeps_colors (timetable : Ui.Timetable) (p p' : Ui.Page)
    (later : list Ui.Timetable) (l : Ui.Lesson) :
  Ui.renderSchedule timetable p = Ui.Completed p' →
  l ∈ Ui.lessons timetable →
  let last := fold_left (λ p t, Ui.page_of (Ui.renderSchedule t p)) later p' in
  Ui.COLOR_MAP (Ui.colors p') ⊆ Ui.COLOR_MAP (Ui.colors last)
  ∧ Ui.pickColor (Ui.subject l) (Ui.colors last)
    = ((Ui.pickColor (Ui.subject l) (Ui.colors p')).1, Ui.colors last)
  ∧ Ui.lesson_card (Ui.colors last) l = Ui.lesson_card (Ui.colors p') l.
Proof.
  intros Hrender Hl last.
  pose proof (StableFacts.renders_extend later p') as Hsub. fold last in Hsub.
  destruct (StableFacts.renderSchedule_recorded _ _ _ Hrender l Hl) as [color Hc].
  pose proof (lookup_weaken _ _ _ _ Hc Hsub) as Hc'.
  split; [exact Hsub|].
  unfold Ui.lesson_card.
  rewrite (ColorFacts.pickColor_known _ _ _ Hc), (ColorFacts.pickColor_known _ _ _ Hc').
  split; reflexivity.
Qed.

Lemma renderSchedule_keeps_colors_witness :
  let math := Ui.mkLesson "1" "Math" "A. Turing" "9th grade" (Some "1") (Some "1") in
  let physics := Ui.mkLesson "2" "Physics" "M. Curie" "9th grade" None None in
  let slots := [Ui.mkTimeslot "1" "MONDAY" "08:30:00" "09:30:00"] in
  let first := Ui.mkTimetable None None [math] [Ui.mkRoom "1" "Room A"] slots in
  let second := Ui.mkTimetable None None [physics; math] [Ui.mkRoom "1" "Room A"] slots in
  let p' := Ui.page_of (Ui.renderSchedule first (Ui.initial_page 1)) in
  let last := fold_left (λ p t, Ui.page_of (Ui.renderSchedule t p)) [second] p' in
  Ui.COLOR_MAP (Ui.colors p') ⊆ Ui.COLOR_MAP (Ui.colors last)
  ∧ Ui.pickColor "Math" (Ui.colors last)
    = ((Ui.pickColor "Math" (Ui.colors p')).1, Ui.colors last)
  ∧ Ui.lesson_card (Ui.colors last) math = Ui.lesson_card (Ui.colors p') math.
Proof.
  intros math physics slots first second p' last.
  apply (renderSchedule_keeps_colors first (Ui.initial_page 1) p' [second] math).
  - vm_compute. reflexivity.
  - left.
Defined.

(** ** The cells of the tables *)
Module GridFacts.

Import Ui Rendering.









End GridFacts.


(** ** [convertToId] *)
Module Base64Facts.

Import Ui Base64.

Lemma list_ind3 {A} (P : list A → Prop) :
  P [] → (∀ a, P [a]) → (∀ a b, P [a; b]) →
  (∀ a b c rest, P rest → P (a :: b :: c :: rest)) →
  ∀ l, P l.
Proof.
  intros H0 H1 H2 H3 l.
  assert (∀ n l, (length l ≤ n)%nat → P l) as H; [|exact (H _ l (le_n _))].
  clear l. induction n as [|n IH]; intros l Hl.
  - destruct l; [exact H0 | simpl in Hl; lia].
  - destruct l as [|a [|b [|c rest]]]; auto.
    apply H3, IH. simpl in Hl. lia.
Qed.

Lemma sextet_base64_char n : (n < 64)%nat → sextet (base64_char n) = n.
Proof.
  intros Hn. do 64 (destruct n as [|n]; [reflexivity|]). lia.
Qed.

Lemma base64_char_alphabet n : base64_char n ∈ base64_alphabet.
Proof.
  do 64 (destruct n as [|n];
         [apply (bool_decide_unpack _); vm_compute; exact I|]).
  destruct n; apply (bool_decide_unpack _); vm_compute; exact I.
Qed.

Lemma alphabet_chars c :
  c ∈ base64_alphabet →
  c ≠ "="%char ∧ (is_id_char c = true ∨ c = "+"%char ∨ c = "/"%char).
Proof.
  intros H. apply list_elem_of_In in H. vm_compute in H.
  repeat (destruct H as [<-|H]; [split; [discriminate | vm_compute; auto]|]).
  destruct H.
Qed.

Lemma base64_char_not_pad n : base64_char n ≠ "="%char.
Proof. apply alphabet_chars, base64_char_alphabet. Qed.

Lemma decode_four a b c d rest :
  decode (a :: b :: c :: d :: rest)
  = (sextet a * 4 + sextet b / 16)%nat :: (sextet b mod 16 * 16 + sextet c / 4)%nat
    :: (sextet c mod 4 * 64 + sextet d)%nat :: decode rest.
Proof. reflexivity. Qed.

Lemma base64_three a b c rest :
  base64 (a :: b :: c :: rest)
  = base64_char (a / 4) :: base64_char (a mod 4 * 16 + b / 16)
    :: base64_char (b mod 16 * 4 + c / 64) :: base64_char (c mod 64)
    :: base64 rest.
Proof. reflexivity. Qed.

Ltac keep_char :=
  rewrite (filter_cons_True (λ c, c ≠ "="%char)) by apply base64_char_not_pad.
Ltac drop_pad :=
  rewrite (filter_cons_False (λ c, c ≠ "="%char)) by (intros H; apply H; reflexivity).

Lemma decode_base64 bytes :
  Forall (λ b, (b < 256)%nat) bytes →
  decode (filter (λ c, c ≠ "="%char) (base64 bytes)) = bytes.
Proof.
  induction bytes as [|a|a b|a b c rest IH] using list_ind3; intros Hb.
  - reflexivity.
  - apply Forall_cons in Hb as [Ha _].
    cbn [base64]. do 2 keep_char. do 2 drop_pad. rewrite filter_nil.
    cbn [decode]. rewrite !sextet_base64_char by lia. f_equal. lia.
  - apply Forall_cons in Hb as [Ha Hb]. apply Forall_cons in Hb as [Hb _].
    cbn [base64]. do 3 keep_char. drop_pad. rewrite filter_nil.
    cbn [decode]. rewrite !sextet_base64_char by lia. f_equal; [lia|]. f_equal. lia.
  - apply Forall_cons in Hb as [Ha Hb]. apply Forall_cons in Hb as [Hb Hc].
    apply Forall_cons in Hc as [Hc Hrest].
    rewrite base64_three. do 4 keep_char. rewrite decode_four, (IH Hrest).
    rewrite !sextet_base64_char by lia.
    f_equal; [lia|]. f_equal; [lia|]. f_equal. lia.
Qed.

Lemma base64_alphabet_or_pad bytes :
  Forall (λ c, c ∈ base64_alphabet) (filter (λ c, c ≠ "="%char) (base64 bytes)).
Proof.
  induction bytes as [|a|a b|a b c rest IH] using list_ind3.
  - constructor.
  - cbn [base64]. do 2 keep_char. do 2 drop_pad. rewrite filter_nil.
    do 2 (apply Forall_cons_2; [apply base64_char_alphabet|]). apply Forall_nil_2.
  - cbn [base64]. do 3 keep_char. drop_pad. rewrite filter_nil.
    do 3 (apply Forall_cons_2; [apply base64_char_alphabet|]). apply Forall_nil_2.
  - rewrite base64_three. do 4 keep_char.
    do 4 (apply Forall_cons_2; [apply base64_char_alphabet|]). exact IH.
Qed.

Lemma length_base64 bytes :
  length (filter (λ c, c ≠ "="%char) (base64 bytes))
  = ((4 * length bytes + 2) / 3)%nat.
Proof.
  induction bytes as [|a|a b|a b c rest IH] using list_ind3.
  - reflexivity.
  - cbn [base64]. do 2 keep_char. do 2 drop_pad. reflexivity.
  - cbn [base64]. do 3 keep_char. drop_pad. reflexivity.
  - rewrite base64_three. do 4 keep_char. cbn [length]. rewrite IH. lia.
Qed.

Lemma bytes_bounded (s : string) :
  Forall (λ b, (b < 256)%nat) (map nat_of_ascii (String.list_ascii_of_string s)).
Proof.
  apply Forall_fmap, Forall_forall. intros c _. apply nat_ascii_bounded.
Qed.

Lemma decode_convertToId str :
  decode (String.list_ascii_of_string (convertToId str))
  = map nat_of_ascii (String.list_ascii_of_string str).
Proof.
  unfold convertToId, btoa. rewrite String.list_ascii_of_string_of_list_ascii.
  apply decode_base64, bytes_bounded.
Qed.

Lemma convertToId_inj s1 s2 : convertToId s1 = convertToId s2 → s1 = s2.
Proof.
  intros H.
  pose proof (decode_convertToId s1) as H1. rewrite H, decode_convertToId in H1.
  assert (String.list_ascii_of_string s1 = String.list_ascii_of_string s2) as Hl.
  { symmetry. revert H1. generalize (String.list_ascii_of_string s1).
    induction (String.list_ascii_of_string s2) as [|c l IH]; intros [|c' l'];
      simpl; try discriminate; [reflexivity|].
    intros [= Hc Hrest]. f_equal; [|exact (IH _ Hrest)].
    rewrite <- (ascii_nat_embedding c), <- (ascii_nat_embedding c'), Hc.
    reflexivity. }
  rewrite <- (String.string_of_list_ascii_of_string s1),
          <- (String.string_of_list_ascii_of_string s2), Hl.
  reflexivity.
Qed.

Lemma append_inj_r (s x y : string) : s +:+ x = s +:+ y → x = y.
Proof.
  induction s as [|c s IH]; simpl; [auto|]. intros [= H]. exact (IH H).
Qed.

End Base64Facts.

(** X12.  [convertToId] returns only characters of the base64 alphabet:
    letters, digits, ["+"] and ["/"], and no ["="], so nothing that could
    end the attribute or open a tag where the id is written into markup;
    and for a string of [n] characters it returns the [4n/3], rounded up,
    characters of its base64 text without the padding. *)
Theorem convertToId_alphabet (str : string) :
  Forall (λ c, c ∈ Ui.base64_alphabet ∧ c ≠ "="%char
               ∧ (Ui.is_id_char c = true ∨ c = "+"%char ∨ c = "/"%char))
         (String.list_ascii_of_string (Ui.convertToId str))
  ∧ length (String.list_ascii_of_string (Ui.convertToId str))
    = ((4 * length (String.list_ascii_of_string str) + 2) / 3)%nat.
Proof.
  unfold Ui.convertToId, Ui.btoa. rewrite String.list_ascii_of_string_of_list_ascii.
  split.
  - eapply Forall_impl; [apply Base64Facts.base64_alphabet_or_pad|].
    intros c Hc. split; [exact Hc|]. apply Base64Facts.alphabet_chars, Hc.
  - rewrite Base64Facts.length_base64, length_map. reflexivity.
Qed.

(** X13.  [convertToId] loses nothing: the codes of the characters of a
    name can be read back from its id, so different teachers, and different
    student groups, never share an id, and within the row of a timeslot
    their cells have different ids. *)
Theorem convertToId_injective (s1 s2 timeslot : string) :
  Base64.decode (String.list_ascii_of_string (Ui.convertToId s1))
  = map nat_of_ascii (String.list_ascii_of_string s1)
  ∧ (Ui.convertToId s1 = Ui.convertToId s2 ↔ s1 = s2)
  ∧ (Ui.teacher_cell_id timeslot s1 = Ui.teacher_cell_id timeslot s2 ↔ s1 = s2)
  ∧ (Ui.studentGroup_cell_id timeslot s1 = Ui.studentGroup_cell_id timeslot s2
     ↔ s1 = s2).
Proof.
  split; [apply Base64Facts.decode_convertToId|].
  split; [split; [apply Base64Facts.convertToId_inj | intros ->; reflexivity]|].
  unfold Ui.teacher_cell_id, Ui.studentGroup_cell_id.
  split; (split; [|intros ->; reflexivity]); intros H;
    do 3 apply Base64Facts.append_inj_r in H;
    exact (Base64Facts.convertToId_inj _ _ H).
Qed.

(** ** Sessions *)
Module SessionFacts.

Import Ui Session.

Lemma refreshSchedule_page s : page (refreshSchedule s) = page s.
Proof.
  unfold refreshSchedule. destruct (scheduleId s), (demoDataId s); reflexivity.
Qed.

Lemma refreshSchedule_ids s :
  scheduleId (refreshSchedule s) = scheduleId s
  ∧ demoDataId (refreshSchedule s) = demoDataId s
  ∧ demoItems (refreshSchedule s) = demoItems s
  ∧ notifications (refreshSchedule s) = notifications s.
Proof.
  unfold refreshSchedule.
  destruct (scheduleId s) eqn:E1, (demoDataId s) eqn:E2; simpl;
    rewrite ?E1, ?E2; repeat split.
Qed.

Lemma iter_demoItem_click_page n item s :
  page (Nat.iter n (demoItem_click item) s) = page s.
Proof.
  induction n as [|n IH]; [reflexivity|]. rewrite Nat.iter_succ.
  unfold demoItem_click at 1. rewrite refreshSchedule_page. exact IH.
Qed.

Lemma fetchDemoData_done_page data s : page (fetchDemoData_done data s) = page s.
Proof.
  unfold fetchDemoData_done. destruct (add_items data (demoItems s)) as [items []];
    [rewrite refreshSchedule_page|]; reflexivity.
Qed.

(** An event leaves the controls as they are or calls
    [refreshSolvingButtons] once. *)
Lemma handle_controls s e :
  controls (page (handle s e)) = controls (page s)
  ∨ ∃ solving,
      controls (page (handle s e)) = refreshSolvingButtons solving (controls (page s)).
Proof.
  destruct e; cbn [handle].
  - left. reflexivity.
  - left. rewrite fetchDemoData_done_page. reflexivity.
  - left. rewrite iter_demoItem_click_page. reflexivity.
  - right. exists (isSolving (solverStatus schedule)).
    unfold refreshSchedule_done, scheduleLoaded. cbn [page with_page].
    rewrite RenderFacts.renderSchedule_controls. reflexivity.
  - right. exists false. reflexivity.
  - left. reflexivity.
  - right. exists true. reflexivity.
  - right. exists false. reflexivity.
  - left. reflexivity.
  - right. exists false. unfold stopSolving_done. rewrite refreshSchedule_page.
    reflexivity.
  - left. reflexivity.
  - left. destruct (intervals (controls (page s))); [reflexivity|].
    rewrite refreshSchedule_page. reflexivity.
Qed.

Lemma mode_consistent c : solving_mode c ∨ idle_mode c → controls_consistent c.
Proof.
  unfold controls_consistent.
  intros [(_ & _ & h & -> & Hi)|(_ & _ & -> & Hi)]; exact Hi.
Qed.

Lemma refreshSolvingButtons_mode solving c :
  controls_consistent c →
  solving_mode (refreshSolvingButtons solving c)
  ∨ idle_mode (refreshSolvingButtons solving c).
Proof.
  intros Hc. destruct solving.
  - left. apply ControlsFacts.refreshSolvingButtons_true, Hc.
  - right. apply ControlsFacts.refreshSolvingButtons_false, Hc.
Qed.

Lemma run_snoc events e s : run (events ++ [e]) s = handle (run events s) e.
Proof. unfold run. rewrite fold_left_app. reflexivity. Qed.

Lemma run_mode events firstHandle :
  let c := controls (page (run events (start firstHandle))) in
  solving_mode c ∨ idle_mode c.
Proof.
  induction events as [|e events IH] using rev_ind.
  - right. repeat split.
  - rewrite run_snoc. simpl in *.
    destruct (handle_controls (run events (start firstHandle)) e) as [->|[b ->]];
      [exact IH|].
    apply refreshSolvingButtons_mode, mode_consistent, IH.
Qed.

Lemma handle_scheduleId s e :
  sets_id e = false → scheduleId s = Null → demoDataId s = Null → demoItems s = [] →
  scheduleId (handle s e) = Null ∧ demoDataId (handle s e) = Null
  ∧ demoItems (handle s e) = [].
Proof.
  intros He Hs Hd Hi.
  destruct e; try discriminate He; simpl; auto.
  - rewrite Hi. simpl. auto.
  - unfold stopSolving_done.
    destruct (refreshSchedule_ids
                (with_page (with_controls (refreshSolvingButtons false)) s))
      as (-> & -> & -> & _). auto.
  - destruct (intervals (controls (page s))); [auto|].
    destruct (refreshSchedule_ids s) as (-> & -> & -> & _). auto.
Qed.

Lemma run_no_id events firstHandle :
  Forall (λ e, sets_id e = false) events →
  let s := run events (start firstHandle) in
  scheduleId s = Null ∧ demoDataId s = Null ∧ demoItems s = [].
Proof.
  induction events as [|e events IH] using rev_ind; intros Hall.
  - simpl. auto.
  - apply Forall_app in Hall as [Hall He]. apply Forall_cons in He as [He _].
    rewrite run_snoc. destruct (IH Hall) as (Hs & Hd & Hi).
    exact (handle_scheduleId _ _ He Hs Hd Hi).
Qed.

End SessionFacts.


(** X15.  How the failures of the three requests are handled, from any
    state a session reaches.  When starting the solver or fetching the
    timetable fails, a notification with the title of the failure is added
    and the page becomes idle: the timer is cleared, so that after a failed
    fetch the page polls no more, and a later firing of the timer does
    nothing.  When stopping the solver fails, only the notification is added:
    the controls stay as they are.  None of the three changes [scheduleId],
    sends a request or touches the tables. *)
Theorem session_failures (firstHandle : nat) (events : list Session.Event) :
  let s := Session.run events (Session.start firstHandle) in
  let idle_after (e : Session.Event) (title : string) :=
    Ui.idle_mode (Ui.controls (Session.page (Session.handle s e)))
    ∧ Session.notifications (Session.handle s e) = Session.notifications s ++ [title]
    ∧ Session.handle (Session.handle s e) Session.Tick = Session.handle s e in
  let unchanged (e : Session.Event) :=
    Session.scheduleId (Session.handle s e) = Session.scheduleId s
    ∧ Session.sent (Session.handle s e) = Session.sent s
    ∧ Ui.tables (Session.page (Session.handle s e)) = Ui.tables (Session.page s)
    ∧ Ui.loadedSchedule (Session.page (Session.handle s e))
      = Ui.loadedSchedule (Session.page s) in
  idle_after Session.SolveFailed "Start solving failed."
  ∧ idle_after Session.ScheduleFailed "Getting the timetable has failed."
  ∧ Session.page (Session.handle s Session.StopFailed) = Session.page s
  ∧ Session.notifications (Session.handle s Session.StopFailed)
    = Session.notifications s ++ ["Stop solving failed."]
  ∧ unchanged Session.SolveFailed ∧ unchanged Session.ScheduleFailed
  ∧ unchanged Session.StopFailed.
Proof.
  intros s idle_after unchanged.
  pose proof (SessionFacts.mode_consistent _ (SessionFacts.run_mode events firstHandle))
    as Hc.
  fold s in Hc.
  pose proof (ControlsFacts.refreshSolvingButtons_false _ Hc) as Hidle.
  assert (∀ e title,
            Session.handle s e
            = Session.with_page (Ui.with_controls (Ui.refreshSolvingButtons false))
                (Session.showError title s) →
            idle_after e title) as Hafter.
  { intros e title He. unfold idle_after. rewrite He.
    split; [exact Hidle|]. split; [reflexivity|].
    destruct Hidle as (_ & _ & _ & Hi). cbn [Session.handle].
    assert (Ui.intervals
              (Ui.controls
                 (Session.page
                    (Session.with_page
                       (Ui.with_controls (Ui.refreshSolvingButtons false))
                       (Session.showError title s)))) = []) as -> by exact Hi.
    reflexivity. }
  split; [apply Hafter; reflexivity|].
  split; [apply Hafter; reflexivity|].
  repeat split.
Qed.

(** ** The requests of a session *)
Module RequestFacts.

Import Ui Session.

(** The requests that can go out while the script has no id. *)
Lemma handle_sent_no_id s e :
  sets_id e = false → scheduleId s = Null → demoDataId s = Null → demoItems s = [] →
  sent (handle s e) = sent s
  ∨ sent (handle s e) = sent s ++ [Get "/demo-data"]
  ∨ sent (handle s e) = sent s ++ [Delete "/timetables/null"]
  ∨ ∃ body, sent (handle s e) = sent s ++ [Post "/timetables" body].
Proof.
  intros He Hs Hd Hi. destruct e; try discriminate He; cbn [handle].
  - right. left. reflexivity.
  - left. rewrite Hi. reflexivity.
  - left. reflexivity.
  - left. reflexivity.
  - right. right. right. eexists. reflexivity.
  - left. reflexivity.
  - right. right. left. unfold stopSolving. rewrite Hs. reflexivity.
  - left. unfold stopSolving_done, refreshSchedule. cbn [scheduleId demoDataId with_page].
    rewrite Hs, Hd. reflexivity.
  - left. reflexivity.
  - left. destruct (intervals (controls (page s))); [reflexivity|].
    unfold refreshSchedule. rewrite Hs, Hd. reflexivity.
Qed.

Lemma run_sent_no_id events firstHandle :
  Forall (λ e, sets_id e = false) events →
  Forall (λ r, r = Get "/demo-data" ∨ r = Delete "/timetables/null"
               ∨ ∃ body, r = Post "/timetables" body)
         (sent (run events (start firstHandle))).
Proof.
  induction events as [|e events IH] using rev_ind; intros Hall.
  - constructor.
  - apply Forall_app in Hall as [Hall He]. apply Forall_cons in He as [He _].
    rewrite SessionFacts.run_snoc.
    destruct (SessionFacts.run_no_id events firstHandle Hall) as (Hs & Hd & Hi).
    destruct (handle_sent_no_id _ _ He Hs Hd Hi) as [->|[->|[->|[body ->]]]];
      [exact (IH Hall)|..]; apply Forall_app; (split; [exact (IH Hall)|]);
      apply Forall_singleton; eauto.
Qed.

Lemma replicate_snoc {A} n (x : A) : replicate n x ++ [x] = x :: replicate n x.
Proof. induction n as [|n IH]; [reflexivity|]. simpl. rewrite IH. reflexivity. Qed.

Lemma demoItem_click_spec item s :
  scheduleId (demoItem_click item s) = Null
  ∧ demoDataId (demoItem_click item s) = Text item
  ∧ demoItems (demoItem_click item s) = demoItems s
  ∧ sent (demoItem_click item s) = sent s ++ [Get ("/demo-data/" +:+ item)].
Proof. repeat split. Qed.

Lemma iter_demoItem_click n item s :
  sent (Nat.iter n (demoItem_click item) s)
  = sent s ++ replicate n (Get ("/demo-data/" +:+ item))
  ∧ ((0 < n)%nat →
     scheduleId (Nat.iter n (demoItem_click item) s) = Null
     ∧ demoDataId (Nat.iter n (demoItem_click item) s) = Text item).
Proof.
  induction n as [|n [IH _]].
  - simpl. rewrite app_nil_r. split; [reflexivity | lia].
  - rewrite Nat.iter_succ.
    destruct (demoItem_click_spec item (Nat.iter n (demoItem_click item) s))
      as (Hs & Hd & _ & Hsent).
    split; [|intros _; split; assumption].
    rewrite Hsent, IH, <- app_assoc, replicate_snoc. reflexivity.
Qed.

Lemma add_items_plain data items :
  Forall (λ item, plain_id (item +:+ "TestData") = true) data →
  add_items data items = (items ++ data, true).
Proof.
  revert items. induction data as [|item data IH]; intros items Hall; simpl.
  - rewrite app_nil_r. reflexivity.
  - apply Forall_cons in Hall as [-> Hall]. rewrite (IH _ Hall), <- app_assoc.
    reflexivity.
Qed.

End RequestFacts.

(** X16.  As long as neither the list of data sets has arrived nor a
    solver job has been started, whatever else happens, [scheduleId] and
    [demoDataId] stay null and no timetable is asked for: [refreshSchedule]
    only alerts "Please select a test data set.", and the only requests that
    go out are [GET /demo-data], [POST /timetables] and, when the user stops
    solving, [DELETE /timetables/null], since [stopSolving] does not look
    whether there is a job. *)
Theorem session_without_id (firstHandle : nat) (events : list Session.Event) :
  Forall (λ e, Session.sets_id e = false) events →
  let s := Session.run events (Session.start firstHandle) in
  Session.scheduleId s = Session.Null ∧ Session.demoDataId s = Session.Null
  ∧ Session.refreshSchedule s = Session.alert "Please select a test data set." s
  ∧ Session.sent (Session.handle s Session.StopClicked)
    = Session.sent s ++ [Session.Delete "/timetables/null"]
  ∧ Session.sent (Session.handle s Session.SolveStopped) = Session.sent s
  ∧ Forall (λ r, r = Session.Get "/demo-data" ∨ r = Session.Delete "/timetables/null"
                 ∨ ∃ body, r = Session.Post "/timetables" body)
           (Session.sent s).
Proof.
  intros Hall s.
  destruct (SessionFacts.run_no_id events firstHandle Hall) as (Hs & Hd & _).
  fold s in Hs, Hd.
  split; [exact Hs|]. split; [exact Hd|].
  split; [unfold Session.refreshSchedule; rewrite Hs, Hd; reflexivity|].
  split; [cbn [Session.handle]; unfold Session.stopSolving; rewrite Hs; reflexivity|].
  split.
  - cbn [Session.handle]. unfold Session.stopSolving_done, Session.refreshSchedule.
    cbn [Session.scheduleId Session.demoDataId Session.with_page].
    rewrite Hs, Hd. reflexivity.
  - apply RequestFacts.run_sent_no_id, Hall.
Qed.

Lemma session_without_id_witness :
  let s := Session.run [Session.Ready; Session.SolveClicked; Session.StopClicked;
                        Session.Tick; Session.SolveFailed] (Session.start 1) in
  Session.scheduleId s = Session.Null ∧ Session.demoDataId s = Session.Null
  ∧ Session.refreshSchedule s = Session.alert "Please select a test data set." s
  ∧ Session.sent (Session.handle s Session.StopClicked)
    = Session.sent s ++ [Session.Delete "/timetables/null"]
  ∧ Session.sent (Session.handle s Session.SolveStopped) = Session.sent s
  ∧ Forall (λ r, r = Session.Get "/demo-data" ∨ r = Session.Delete "/timetables/null"
                 ∨ ∃ body, r = Session.Post "/timetables" body)
           (Session.sent s).
Proof.
  apply (session_without_id 1
           [Session.Ready; Session.SolveClicked; Session.StopClicked;
            Session.Tick; Session.SolveFailed]).
  repeat constructor.
Defined.

(** X17.  When the server answers [solve] with the id of the job, from
    any state a session reaches: the id is kept, the page is in solving mode,
    and from then on the firing of the timer asks for [/timetables/<id>], a
    click on stop sends [DELETE /timetables/<id>], and the success of that
    request makes the page idle and asks for [/timetables/<id>] once more. *)
Theorem session_polls_job (firstHandle : nat) (events : list Session.Event)
    (data : string) :
  let s := Session.handle (Session.run events (Session.start firstHandle))
             (Session.SolveStarted data) in
  Session.scheduleId s = Session.Text data
  ∧ Ui.solving_mode (Ui.controls (Session.page s))
  ∧ Session.handle s Session.Tick
    = Session.send (Session.Get ("/timetables/" +:+ data)) s
  ∧ Session.handle s Session.StopClicked
    = Session.send (Session.Delete ("/timetables/" +:+ data)) s
  ∧ Session.sent (Session.handle s Session.SolveStopped)
    = Session.sent s ++ [Session.Get ("/timetables/" +:+ data)]
  ∧ Ui.idle_mode (Ui.controls (Session.page (Session.handle s Session.SolveStopped))).
Proof.
  intros s.
  pose proof (SessionFacts.mode_consistent _ (SessionFacts.run_mode events firstHandle))
    as Hc.
  pose proof (ControlsFacts.refreshSolvingButtons_true _ Hc) as Hsolving.
  assert (Ui.solving_mode (Ui.controls (Session.page s))) as Hs by exact Hsolving.
  split; [reflexivity|]. split; [exact Hs|].
  split; [|split; [reflexivity|split; [reflexivity|]]].
  - cbn [Session.handle]. destruct Hs as (_ & _ & h & _ & ->). reflexivity.
  - cbn [Session.handle]. unfold Session.stopSolving_done.
    rewrite SessionFacts.refreshSchedule_page.
    apply ControlsFacts.refreshSolvingButtons_false, SessionFacts.mode_consistent.
    left. exact Hs.
Qed.

(** X18.  When the list of data sets arrives and every item makes a plain
    id: every item gets a click handler, [demoDataId] becomes the first item,
    [undefined] when the list is empty, and, with no job, that data set is
    asked for, so that an empty list asks for [/demo-data/undefined].  A click
    on an item then forgets the job and asks for the item's data set, once
    for every time the item is in the menu. *)
Theorem fetchDemoData_done_loads (data : list string) (s : Session.State)
    (item : string) :
  Forall (λ item, Ui.plain_id (item +:+ "TestData") = true) data →
  let s1 := Session.fetchDemoData_done data s in
  let s2 := Session.handle s1 (Session.DemoItemClicked item) in
  Session.demoItems s1 = Session.demoItems s ++ data
  ∧ Session.demoDataId s1 = Session.first_item data
  ∧ Session.scheduleId s1 = Session.scheduleId s
  ∧ (Session.scheduleId s = Session.Null →
     Session.sent s1
     = Session.sent s
       ++ [Session.Get ("/demo-data/" +:+ Session.id_text (Session.first_item data))])
  ∧ (data = [] → Session.id_text (Session.first_item data) = "undefined")
  ∧ Session.sent s2
    = Session.sent s1
      ++ replicate (Session.handlers_of item (Session.demoItems s ++ data))
                   (Session.Get ("/demo-data/" +:+ item))
  ∧ (item ∈ data →
     Session.scheduleId s2 = Session.Null ∧ Session.demoDataId s2 = Session.Text item).
Proof.
  intros Hplain s1 s2.
  assert (s1 = Session.refreshSchedule
                 (Session.with_demoDataId (Session.first_item data)
                    (Session.with_demoItems (Session.demoItems s ++ data) s))) as Hs1.
  { unfold s1, Session.fetchDemoData_done.
    rewrite (RequestFacts.add_items_plain _ _ Hplain). reflexivity. }
  destruct (SessionFacts.refreshSchedule_ids
              (Session.with_demoDataId (Session.first_item data)
                 (Session.with_demoItems (Session.demoItems s ++ data) s)))
    as (Hsid & Hdid & Hitems & _).
  rewrite <- Hs1 in Hsid, Hdid, Hitems.
  cbn [Session.scheduleId Session.demoDataId Session.demoItems
       Session.with_demoDataId Session.with_demoItems] in Hsid, Hdid, Hitems.
  split; [exact Hitems|]. split; [exact Hdid|]. split; [exact Hsid|].
  split; [|split; [intros ->; reflexivity|]].
  - intros Hnull. rewrite Hs1. unfold Session.refreshSchedule.
    cbn [Session.scheduleId Session.demoDataId Session.with_demoDataId
         Session.with_demoItems].
    rewrite Hnull. destruct data; reflexivity.
  - unfold s2. cbn [Session.handle]. rewrite Hitems.
    destruct (RequestFacts.iter_demoItem_click
                (Session.handlers_of item (Session.demoItems s ++ data)) item s1)
      as [Hsent Hids].
    split; [exact Hsent|]. intros Hin. apply Hids.
    unfold Session.handlers_of.
    assert (item ∈ filter (λ i, i = item) (Session.demoItems s ++ data)) as Hf.
    { apply list_elem_of_filter. split; [reflexivity|].
      apply elem_of_app. right. exact Hin. }
    destruct (filter (λ i, i = item) (Session.demoItems s ++ data));
      [inversion Hf | simpl; lia].
Qed.

Lemma fetchDemoData_done_loads_witness :
  let s := Session.handle (Session.start 1) Session.Ready in
  let s1 := Session.fetchDemoData_done ["SMALL"; "LARGE"] s in
  let s2 := Session.handle s1 (Session.DemoItemClicked "LARGE") in
  Session.demoItems s1 = Session.demoItems s ++ ["SMALL"; "LARGE"]
  ∧ Session.demoDataId s1 = Session.first_item ["SMALL"; "LARGE"]
  ∧ Session.scheduleId s1 = Session.scheduleId s
  ∧ (Session.scheduleId s = Session.Null →
     Session.sent s1
     = Session.sent s
       ++ [Session.Get ("/demo-data/"
                        +:+ Session.id_text (Session.first_item ["SMALL"; "LARGE"]))])
  ∧ (["SMALL"; "LARGE"] = [] →
     Session.id_text (Session.first_item ["SMALL"; "LARGE"]) = "undefined")
  ∧ Session.sent s2
    = Session.sent s1
      ++ replicate (Session.handlers_of "LARGE"
                      (Session.demoItems s ++ ["SMALL"; "LARGE"]))
                   (Session.Get ("/demo-data/" +:+ "LARGE"))
  ∧ ("LARGE" ∈ ["SMALL"; "LARGE"] →
     Session.scheduleId s2 = Session.Null ∧ Session.demoDataId s2 = Session.Text "LARGE").
Proof.
  apply (fetchDemoData_done_loads ["SMALL"; "LARGE"]
           (Session.handle (Session.start 1) Session.Ready) "LARGE").
  repeat constructor.
Defined.
